(** * SMC sampler: a shallow embedding of [src/models/samplers/base_sampler.py]

    The sampler anneals a pool of particles from a source to a target energy
    with a pluggable local-move kernel, importance weights and resampling.

    Tensor entries are modelled as exact rationals extended with one
    not-a-number value: arithmetic is exact, [NaN] is absorbing and every
    comparison with [NaN] is false.  There are no infinities and no rounding;
    a division by zero yields [NaN]. *)

From Stdlib Require Import String QArith Qcanon Bool Arith ZArith Lia Lqa List.
Import ListNotations.
Local Open Scope string_scope.
Local Open Scope list_scope.
Local Open Scope nat_scope.

Set Implicit Arguments.

(** ** Scalars *)

Inductive scalar : Type :=
| Num (q : Qc)
| NaN.

Definition isnan (s : scalar) : bool :=
  match s with NaN => true | Num _ => false end.

Definition Qcltb (p q : Qc) : bool :=
  (Qnum p * QDen q <? Qnum q * QDen p)%Z.

Definition Qcleb (p q : Qc) : bool :=
  (Qnum p * QDen q <=? Qnum q * QDen p)%Z.

Definition Qczerob (p : Qc) : bool := (Qnum p =? 0)%Z.

Definition lift2 (op : Qc -> Qc -> Qc) (a b : scalar) : scalar :=
  match a, b with
  | Num p, Num q => Num (op p q)
  | _, _ => NaN
  end.

Definition sadd : scalar -> scalar -> scalar := lift2 Qcplus.
Definition ssub : scalar -> scalar -> scalar := lift2 Qcminus.
Definition smul : scalar -> scalar -> scalar := lift2 Qcmult.

Definition sdiv (a b : scalar) : scalar :=
  match a, b with
  | Num p, Num q => if Qczerob q then NaN else Num (Qcdiv p q)
  | _, _ => NaN
  end.

(** [a < b], [a > b] and [a >= b] as Python evaluates them on floats. *)
Definition sltb (a b : scalar) : bool :=
  match a, b with
  | Num p, Num q => Qcltb p q
  | _, _ => false
  end.

Definition sgtb (a b : scalar) : bool := sltb b a.

Definition sgeb (a b : scalar) : bool :=
  match a, b with
  | Num p, Num q => Qcleb q p
  | _, _ => false
  end.

Definition of_Q (q : Q) : scalar := Num (Q2Qc q).
Definition of_nat (n : nat) : scalar := of_Q (inject_Z (Z.of_nat n)).

Definition s0 : scalar := of_Q 0.
Definition s1 : scalar := of_Q 1.

(** ** Exceptions and results *)

Inductive exn : Type :=
| ValueError (msg : string)
| IndexError (msg : string)
| RuntimeError (msg : string)
| AssertionError (msg : string)
| NameError (msg : string).

Inductive result (A : Type) : Type :=
| Ok (a : A)
| Raise (e : exn).

Arguments Ok {A} a.
Arguments Raise {A} e.

Definition rbind {A B : Type} (r : result A) (k : A -> result B) : result B :=
  match r with
  | Ok a => k a
  | Raise e => Raise e
  end.

(** ** Tensors

    A flat tensor is a list of scalars; a particle array of shape N x D is a
    list of N rows. *)

Definition vec : Type := list scalar.
Definition particle : Type := list scalar.
Definition particles : Type := list particle.

(** [v.isnan().any()] and [X.isnan().any()]. *)
Definition vec_has_nan (v : vec) : bool := existsb isnan v.
Definition has_nan (X : particles) : bool := existsb vec_has_nan X.

(** [torch.ones(n)] and [torch.ones_like(A)]. *)
Definition ones (n : nat) : vec := repeat s1 n.
Definition ones_like (A : vec) : vec := ones (length A).

(** [X[i : i + b]]. *)
Definition slice {T : Type} (X : list T) (i b : nat) : list T :=
  firstn b (skipn i X).

(** [range(0, n, b)] for a positive step [b]. *)
Definition range_step (n b : nat) : list nat :=
  map (fun k => k * b) (seq 0 ((n + b - 1) / b)).

(** [[X[i : i + b] for i in range(0, len(X), b)]]; [range] refuses step 0. *)
Definition batches {T : Type} (b : nat) (X : list T) : result (list (list T)) :=
  match b with
  | O => Raise (ValueError "range() arg 3 must not be zero")
  | S _ => Ok (map (fun i => slice X i b) (range_step (length X) b))
  end.

(** [torch.cat(parts, dim=0)], which rejects an empty list of tensors. *)
Definition cat {T : Type} (parts : list (list T)) : result (list T) :=
  match parts with
  | [] => Raise (RuntimeError "torch.cat(): expected a non-empty list of Tensors")
  | _ => Ok (concat parts)
  end.

(** [x[indexes]] with an integer index tensor. *)
Fixpoint gather {T : Type} (x : list T) (indexes : list nat) : result (list T) :=
  match indexes with
  | [] => Ok []
  | i :: rest =>
      match nth_error x i with
      | None => Raise (IndexError "index out of range")
      | Some xi => rbind (gather x rest) (fun r => Ok (xi :: r))
      end
  end.

(** [x[mask]] with a boolean mask, which must have one entry per row. *)
Fixpoint select {T : Type} (x : list T) (mask : list bool) : list T :=
  match x, mask with
  | xi :: x', m :: mask' => if m then xi :: select x' mask' else select x' mask'
  | _, _ => []
  end.

Definition mask_index {T : Type} (x : list T) (mask : list bool) : result (list T) :=
  if length x =? length mask then Ok (select x mask)
  else Raise (IndexError "The shape of the mask does not match the indexed tensor").

(** [v.sum()], [torch.cumsum(v, dim=0)] and [v.mean()]. *)
Definition ssum (v : vec) : scalar := fold_left sadd v s0.

Fixpoint cumsum_from (acc : scalar) (v : vec) : vec :=
  match v with
  | [] => []
  | a :: v' => let acc' := sadd acc a in acc' :: cumsum_from acc' v'
  end.

Definition cumsum (v : vec) : vec := cumsum_from s0 v.

Definition smean (v : vec) : scalar := sdiv (ssum v) (of_nat (length v)).

(** [torch.searchsorted(c, v)] with the default [right=False]: the position
    of the first entry of [c] that is [>= v], or [len(c)] when there is none. *)
Fixpoint searchsorted (c : vec) (v : scalar) : nat :=
  match c with
  | [] => 0
  | ci :: c' => if sgeb ci v then 0 else S (searchsorted c' v)
  end.

(** [torch.linspace(start, end, steps)]. *)
Definition linspace (start stop : scalar) (steps : nat) : vec :=
  match steps with
  | 1 => [start]
  | _ => map (fun i => sadd start (smul (of_nat i)
                 (sdiv (ssub stop start) (of_nat (steps - 1)))))
             (seq 0 steps)
  end.

(** ** The sampler object *)

Record SMCSampler : Type := mkSMCSampler {
  batch_size : nat;
  langevin_eps : scalar;
  num_timesteps : nat;
  ess_threshold : scalar;
  systematic_resampling : bool;
  adaptive_step_size : bool;
  warmup : scalar;
  enabled : bool;
  do_energy_plots : bool;
  log_freq : nat;
  input_energy_cutoff : option scalar
}.

Definition set_langevin_eps (self : SMCSampler) (eps : scalar) : SMCSampler :=
  mkSMCSampler (batch_size self) eps (num_timesteps self) (ess_threshold self)
    (systematic_resampling self) (adaptive_step_size self) (warmup self)
    (enabled self) (do_energy_plots self) (log_freq self)
    (input_energy_cutoff self).

Definition set_batch_size (self : SMCSampler) (b : nat) : SMCSampler :=
  mkSMCSampler b (langevin_eps self) (num_timesteps self) (ess_threshold self)
    (systematic_resampling self) (adaptive_step_size self) (warmup self)
    (enabled self) (do_energy_plots self) (log_freq self)
    (input_energy_cutoff self).

(** An energy function maps a batch of particles to a tensor of energies. *)
Definition energy_fn : Type := particles -> vec.

(** [init_timesteps]. *)
Definition init_timesteps (self : SMCSampler) : vec :=
  linspace s0 s1 (num_timesteps self + 1).

(** [langevin_eps_fn]. *)
Definition langevin_eps_fn (self : SMCSampler) (t : scalar) : scalar :=
  if sltb t (warmup self)
  then sdiv (smul (langevin_eps self) t) (warmup self)
  else langevin_eps self.

(** [update_step_size]: the step size is the one mutable field. *)
Definition update_step_size (self : SMCSampler) (acceptance_rate : scalar)
  : SMCSampler :=
  if sgtb acceptance_rate (of_Q (6 # 10))
  then set_langevin_eps self (smul (langevin_eps self) (of_Q (11 # 10)))
  else if sltb acceptance_rate (of_Q (55 # 100))
  then set_langevin_eps self (sdiv (langevin_eps self) (of_Q (11 # 10)))
  else self.

(** [linear_energy_interpolation] with a scalar time [t]. *)
Definition linear_energy_interpolation
  (source_energy target_energy : energy_fn) (t : scalar) (x : particles)
  : result vec :=
  let E_source := source_energy x in
  let E_target := target_energy x in
  if negb (length E_source =? length x)
  then Raise (AssertionError "Source energy should be a flat vector")
  else if negb (length E_target =? length x)
  then Raise (AssertionError "Target energy should be a flat vector")
  else Ok (map (fun p => sadd (smul (ssub s1 t) (fst p)) (smul t (snd p)))
               (combine E_source E_target)).

(** ** The driver

    The kernel, the efficiency measure, the exponential and the ambient random
    generator are external to the sampler: they are parameters of the model. *)

(** What a run leaves behind: the messages passed to [logging.info] and, as an
    observation of the calls made, one entry per kernel invocation. *)
Inductive event : Type :=
| Clipping
| OuterLoop (j : nat)
| KernelCall (t dt : scalar) (rows : nat)
| Resampling (j : nat) (indexes : list nat).

(** The local variables of the main loop of [sample]. *)
Record loop_state : Type := mkLoop {
  st_X : particles;
  st_A : vec;
  st_particle_ids : list nat;
  st_t_previous : scalar
}.

Definition shape (X : particles) : nat * nat :=
  (length X, match X with [] => 0 | row :: _ => length row end).

Definition shape_eqb (a b : nat * nat) : bool :=
  (fst a =? fst b) && (snd a =? snd b).

(** [enumerate(ts)]. *)
Definition enumerate {T : Type} (ts : list T) : list (nat * T) :=
  combine (seq 0 (length ts)) ts.

Section Driver.

(** The exponential used by [torch.softmax] on finite entries. *)
Variable Qexp : Qc -> Qc.

(** The ambient random generator: [torch.rand(1)] and one categorical draw
    of [torch.multinomial]. *)
Variable rng : Type.
Variable rand : rng -> Qc * rng.
Variable categorical : rng -> vec -> nat * rng.

(** [mcmc_kernel], abstract in the base class; the acceptance rate is the
    flattened tensor it returns. *)
Variable mcmc_kernel :
  SMCSampler -> energy_fn -> energy_fn -> scalar -> particles -> vec ->
  scalar -> particles * vec * vec.

(** [sampling_efficiency] of [src.evaluation.metrics.ess]. *)
Variable sampling_efficiency : vec -> scalar.

(** The sampler object, the generator and the log outlive an exception. *)
Record world : Type := mkWorld {
  w_self : SMCSampler;
  w_rng : rng;
  w_log : list event
}.

Definition M (A : Type) : Type := world -> result A * world.

Definition ret {A : Type} (a : A) : M A := fun w => (Ok a, w).

Definition bind {A B : Type} (m : M A) (k : A -> M B) : M B :=
  fun w => match m w with
           | (Ok a, w') => k a w'
           | (Raise e, w') => (Raise e, w')
           end.

Definition raise {A : Type} (e : exn) : M A := fun w => (Raise e, w).

Definition lift {A : Type} (r : result A) : M A := fun w => (r, w).

Definition get_self : M SMCSampler := fun w => (Ok (w_self w), w).

Definition put_self (self : SMCSampler) : M unit :=
  fun w => (Ok tt, mkWorld self (w_rng w) (w_log w)).

Definition logging (e : event) : M unit :=
  fun w => (Ok tt, mkWorld (w_self w) (w_rng w) (w_log w ++ [e])).

Definition draw_rand : M Qc :=
  fun w => let (u, g) := rand (w_rng w) in
           (Ok u, mkWorld (w_self w) g (w_log w)).

Definition draw_categorical (p : vec) : M nat :=
  fun w => let (i, g) := categorical (w_rng w) p in
           (Ok i, mkWorld (w_self w) g (w_log w)).

Notation "x <- m ;; k" := (bind m (fun x => k))
  (at level 61, m at next level, right associativity).
Notation "m ;;; k" := (bind m (fun _ => k))
  (at level 61, right associativity).

Definition sexp (a : scalar) : scalar :=
  match a with Num q => Num (Qexp q) | NaN => NaN end.

(** [torch.softmax(logw, dim=-1)]. *)
Definition softmax (logw : vec) : vec :=
  let e := map sexp logw in
  map (fun a => sdiv a (ssum e)) e.

(** [torch.multinomial(w, n, replacement=True)]: [n] draws in a row. *)
Fixpoint multinomial (w : vec) (n : nat) : M (list nat) :=
  match n with
  | O => ret []
  | S n' => i <- draw_categorical w ;; rest <- multinomial w n' ;; ret (i :: rest)
  end.

(** The positions [u + arange(N) / N] probed by systematic resampling. *)
Definition systematic_positions (u : scalar) (N : nat) : vec :=
  map (fun k => sadd u (sdiv (of_nat k) (of_nat N))) (seq 0 N).

(** [resample]. *)
Definition resample (x : particles) (logw : vec) : M (particles * list nat) :=
  self <- get_self ;;
  indexes <-
    (if systematic_resampling self then
       let N := length logw in
       let w := softmax logw in
       let c := cumsum w in
       r <- draw_rand ;;
       let u := sdiv (Num r) (of_nat N) in
       ret (map (searchsorted c) (systematic_positions u N))
     else
       let w := softmax logw in
       multinomial w (length x)) ;;
  x_selected <- lift (gather x indexes) ;;
  ret (x_selected, indexes).

(** The filter at the start of [sample]. *)
Definition sample_init (proposal_samples : particles) (target_energy : energy_fn)
  : M particles :=
  self <- get_self ;;
  match input_energy_cutoff self with
  | None => ret proposal_samples
  | Some cutoff =>
      let proposal_samples_energy := target_energy proposal_samples in
      kept <- lift (mask_index proposal_samples
                      (map (fun e => sltb e cutoff) proposal_samples_energy)) ;;
      logging Clipping ;;;
      ret kept
  end.

(** The loop over the zipped batches: check, move, collect. *)
Fixpoint batch_loop (source_energy target_energy : energy_fn) (t dt : scalar)
  (zipped : list (particles * vec)) : M (list (particles * vec * vec)) :=
  match zipped with
  | [] => ret []
  | (X_batch, A_batch) :: rest =>
      if has_nan X_batch then raise (ValueError "X contains NaNs")
      else
        self <- get_self ;;
        logging (KernelCall t dt (length X_batch)) ;;;
        let moved := mcmc_kernel self source_energy target_energy t
                       X_batch A_batch dt in
        others <- batch_loop source_energy target_energy t dt rest ;;
        ret (moved :: others)
  end.

(** The batch lists after the loop: updated entries, then the entries the
    zip did not reach. *)
Definition updated {T : Type} (news olds : list T) : list T :=
  news ++ skipn (length news) olds.

(** First half of an iteration: slice, move every batch, concatenate. *)
Definition move_batches (source_energy target_energy : energy_fn)
  (st : loop_state) (t : scalar) : M (particles * vec * scalar) :=
  self <- get_self ;;
  X_batches <- lift (batches (batch_size self) (st_X st)) ;;
  A_batches <- lift (batches (batch_size self) (st_A st)) ;;
  let dt := ssub t (st_t_previous st) in
  moved <- batch_loop source_energy target_energy t dt
             (combine X_batches A_batches) ;;
  X <- lift (cat (updated (map (fun m => fst (fst m)) moved) X_batches)) ;;
  A <- lift (cat (updated (map (fun m => snd (fst m)) moved) A_batches)) ;;
  rates <- lift (cat (map (fun m => snd m) moved)) ;;
  ret (X, A, smean rates).

(** Second half: step-size control, the NaN checks, and the resampling
    triggered by the effective sample size. *)
Definition finish_step (st : loop_state) (j : nat) (t : scalar)
  (X : particles) (A : vec) (acceptance_rate : scalar) : M loop_state :=
  self <- get_self ;;
  let num_timesteps := num_timesteps self in
  (if adaptive_step_size self
   then put_self (update_step_size self acceptance_rate)
   else ret tt) ;;;
  if has_nan X then raise (ValueError "X has NaNs")
  else if vec_has_nan A then raise (ValueError "A has NaNs")
  else
    let ESS := sampling_efficiency A in
    self <- get_self ;;
    if sltb ESS (ess_threshold self) && negb (j + 1 =? num_timesteps) then
      sel <- resample X A ;;
      let (X', indexes) := (sel : particles * list nat) in
      let A' := ones_like A in
      logging (Resampling j indexes) ;;;
      ids <- lift (gather (st_particle_ids st) indexes) ;;
      ret (mkLoop X' A' ids t)
    else
      ret (mkLoop X A (st_particle_ids st) t).

(** One iteration of the main loop. *)
Definition smc_step (source_energy target_energy : energy_fn)
  (st : loop_state) (j : nat) (t : scalar) : M loop_state :=
  logging (OuterLoop j) ;;;
  r <- move_batches source_energy target_energy st t ;;
  let '(X, A, acceptance_rate) := (r : particles * vec * scalar) in
  finish_step st j t X A acceptance_rate.

(** [for j, t in enumerate(timesteps[:-1])]. *)
Fixpoint smc_loop (source_energy target_energy : energy_fn)
  (steps : list (nat * scalar)) (st : loop_state) : M loop_state :=
  match steps with
  | [] => ret st
  | (j, t) :: rest =>
      st' <- smc_step source_energy target_energy st j t ;;
      smc_loop source_energy target_energy rest st'
  end.

(** The value of [j] once the loop is over, if the loop ran at all. *)
Definition last_j {T : Type} (steps : list (nat * T)) : option nat :=
  match rev steps with
  | [] => None
  | (j, _) :: _ => Some j
  end.

(** The resampling after the loop and the value returned. *)
Definition final_resampling (steps : list (nat * scalar))
  (proposal_samples : particles) (st : loop_state)
  : M (option (particles * vec)) :=
  sel <- resample (st_X st) (st_A st) ;;
  let (X', indexes) := (sel : particles * list nat) in
  ids <- lift (gather (st_particle_ids st) indexes) ;;
  match last_j steps with
  | None => raise (NameError "name 'j' is not defined")
  | Some j =>
      logging (Resampling j indexes) ;;;
      let smc_samples := X' in
      let smc_logits := st_A st in
      if negb (shape_eqb (shape smc_samples) (shape proposal_samples))
      then raise (AssertionError "shape mismatch")
      else ret (Some (smc_samples, smc_logits))
  end.

(** [sample]. *)
Definition sample (proposal_samples : particles)
  (source_energy target_energy : energy_fn) : M (option (particles * vec)) :=
  self <- get_self ;;
  if negb (enabled self) then ret None
  else
    proposal_samples <- sample_init proposal_samples target_energy ;;
    let timesteps := init_timesteps self in
    let X := proposal_samples in
    let A := ones (length X) in
    let particle_ids := seq 0 (length X) in
    let steps := enumerate (removelast timesteps) in
    st <- smc_loop source_energy target_energy steps
            (mkLoop X A particle_ids s0) ;;
    final_resampling steps proposal_samples st.

End Driver.

Arguments mkWorld {rng} w_self w_rng w_log.
Arguments w_self {rng} w.
Arguments w_rng {rng} w.
Arguments w_log {rng} w.

(** ** Vocabulary of the statements *)


(** The particles whose energy is strictly below the cutoff, in pool order. *)
Definition below_cutoff (X : particles) (E : vec) (cutoff : scalar) : particles :=
  map fst (filter (fun p => sltb (snd p) cutoff) (combine X E)).


(** The time and the time increment of every kernel invocation, in order. *)
Fixpoint kernel_calls (log : list event) : list (scalar * scalar) :=
  match log with
  | [] => []
  | KernelCall t dt _ :: rest => (t, dt) :: kernel_calls rest
  | _ :: rest => kernel_calls rest
  end.

(** The index tensors of the resamplings recorded at step [j]. *)
Fixpoint resamplings_at (j : nat) (log : list event) : list (list nat) :=
  match log with
  | [] => []
  | Resampling j' indexes :: rest =>
      if j' =? j then indexes :: resamplings_at j rest else resamplings_at j rest
  | _ :: rest => resamplings_at j rest
  end.

(** The schedule time [j / T] and the increment handed to the kernel. *)
Definition schedule_time (T j : nat) : scalar := sdiv (of_nat j) (of_nat T).

Definition schedule_dt (T j : nat) : scalar :=
  match j with
  | O => s0
  | S _ => sdiv s1 (of_nat T)
  end.


(** The batches of a pool, for a positive batch size. *)
Definition batch_list {T : Type} (b : nat) (X : list T) : list (list T) :=
  map (fun i => slice X i b) (range_step (length X) b).

(** The world after more entries have been logged. *)
Definition add_log {rng : Type} (w : world rng) (l : list event) : world rng :=
  mkWorld (w_self w) (w_rng w) (w_log w ++ l).

(** The zipped batches that come before the first batch with a NaN. *)
Fixpoint clean_prefix (zipped : list (particles * vec)) : list (particles * vec) :=
  match zipped with
  | [] => []
  | z :: rest => if has_nan (fst z) then [] else z :: clean_prefix rest
  end.

(** The entries logged by the batch loop. *)
Definition logged_calls (t dt : scalar) (zipped : list (particles * vec))
  : list event :=
  map (fun z => KernelCall t dt (length (fst z))) (clean_prefix zipped).

(** The indices drawn by [multinomial] and the generator it leaves. *)
Fixpoint draws {rng : Type} (categorical : rng -> vec -> nat * rng)
  (g : rng) (p : vec) (n : nat) : list nat * rng :=
  match n with
  | O => ([], g)
  | S n' =>
      let (i, g1) := categorical g p in
      let (rest, g2) := draws categorical g1 p n' in
      (i :: rest, g2)
  end.

(** The indices selected by systematic resampling from the draw [r]. *)
Definition systematic_indexes (Qexp : Qc -> Qc) (logw : vec) (r : Qc) : list nat :=
  let N := length logw in
  map (searchsorted (cumsum (softmax Qexp logw)))
      (systematic_positions (sdiv (Num r) (of_nat N)) N).

(** The indices selected by [resample] and the generator it leaves. *)
Definition resample_indexes {rng : Type} (Qexp : Qc -> Qc)
  (rand : rng -> Qc * rng) (categorical : rng -> vec -> nat * rng)
  (self : SMCSampler) (x : particles) (logw : vec) (g : rng) : list nat * rng :=
  if systematic_resampling self
  then let (r, g') := rand g in (systematic_indexes Qexp logw r, g')
  else draws categorical g (softmax Qexp logw) (length x).

(** The world after the step-size control of one iteration. *)
Definition controlled {rng : Type} (w : world rng) (acceptance_rate : scalar)
  : world rng :=
  if adaptive_step_size (w_self w)
  then mkWorld (update_step_size (w_self w) acceptance_rate) (w_rng w) (w_log w)
  else w.

(** Two sampler objects that differ at most in their step size. *)
Definition same_config (a b : SMCSampler) : Prop :=
  set_langevin_eps a s0 = set_langevin_eps b s0.

(** The increments [t - t_previous] along a list of times. *)
Fixpoint increments (t_previous : scalar) (ts : vec) : vec :=
  match ts with
  | [] => []
  | t :: rest => ssub t t_previous :: increments t rest
  end.

(** The kernel invocations of a run that makes [n] of them at the step of
    index [j], for every pair [(j, n)]. *)
Definition scheduled_calls (T : nat) (counts : list (nat * nat))
  : list (scalar * scalar) :=
  flat_map (fun p => repeat (schedule_time T (fst p), schedule_dt T (fst p)) (snd p))
           counts.

(** Two worlds with the same generator and the same sampler up to its
    batch size, which is positive in both; the logs are free. *)
Definition sim {rng : Type} (w1 w2 : world rng) : Prop :=
  w_rng w1 = w_rng w2 /\
  set_batch_size (w_self w1) 0 = set_batch_size (w_self w2) 0 /\
  0 < batch_size (w_self w1) /\ 0 < batch_size (w_self w2).



(** Equality tests used to evaluate concrete runs. *)
Definition scalar_eqb (a b : scalar) : bool :=
  match a, b with
  | Num p, Num q => Qc_eq_bool p q
  | NaN, NaN => true
  | _, _ => false
  end.

Fixpoint list_eqb {T : Type} (eqb : T -> T -> bool) (l1 l2 : list T) : bool :=
  match l1, l2 with
  | [], [] => true
  | a :: l1', b :: l2' => eqb a b && list_eqb eqb l1' l2'
  | _, _ => false
  end.

Definition vec_eqb : vec -> vec -> bool := list_eqb scalar_eqb.
Definition particles_eqb : particles -> particles -> bool := list_eqb vec_eqb.

(** ** A concrete instance, for evaluating the model *)

Module Demo.

(** The generator is the list of the uniform draws still to come. *)
Definition rng : Type := list Qc.

Definition rand (g : rng) : Qc * rng :=
  match g with
  | [] => (Q2Qc 0, [])
  | u :: g' => (u, g')
  end.

(** A categorical draw by inversion of the cumulative weights. *)
Definition categorical (g : rng) (w : vec) : nat * rng :=
  let (u, g') := rand g in
  (Nat.min (searchsorted (cumsum w) (Num u)) (length w - 1), g').

(** A positive stand-in for the exponential. *)
Definition Qexp (q : Qc) : Qc := (1 + q * q)%Qc.

(** The particles stay where they are, the time is added to every weight
    and every move is accepted. *)
Definition kernel (self : SMCSampler) (source_energy target_energy : energy_fn)
  (t : scalar) (x : particles) (logw : vec) (dt : scalar)
  : particles * vec * vec :=
  let rows := map (fun p => (fst p, sadd (snd p) t, s1)) (combine x logw) in
  (map (fun r => fst (fst r)) rows,
   map (fun r => snd (fst r)) rows,
   map (fun r => snd r) rows).



(** An efficiency measure: the number of weights. *)
Definition ess (A : vec) : scalar := of_nat (length A).

Definition square (x : particles) : vec :=
  map (fun row => match row with a :: _ => smul a a | [] => s0 end) x.

Definition shifted_square (x : particles) : vec :=
  map (fun row => match row with
                  | a :: _ => smul (ssub a s1) (ssub a s1)
                  | [] => s0
                  end) x.


(** Systematic resampling, four steps, no resampling inside the loop. *)
Definition config : SMCSampler :=
  mkSMCSampler 2 s1 4 (of_Q (-1)) true false s1 true false 10 None.

(** The same with a threshold that every step but the last falls below. *)
Definition resampling_config : SMCSampler :=
  mkSMCSampler 2 s1 4 (of_nat 100) true false s1 true false 10 None.

(** The same as [config] with an energy cutoff on the input. *)
Definition cutoff_config : SMCSampler :=
  mkSMCSampler 2 s1 4 (of_Q (-1)) true false s1 true false 10 (Some (of_nat 4)).

Definition cutoff_pool : particles :=
  [[of_nat 3]; [of_nat 0]; [of_nat 2]; [of_nat 1]].


Definition pool : particles :=
  [[of_nat 1]; [of_nat 2]; [of_nat 3]; [of_nat 4]].

Definition start (self : SMCSampler) : world rng :=
  mkWorld self [Q2Qc (1 # 2); Q2Qc (1 # 3); Q2Qc (3 # 4); Q2Qc (1 # 5);
                Q2Qc (2 # 3)] [].

Definition run (self : SMCSampler) (X : particles)
  : result (option (particles * vec)) * world rng :=
  sample Qexp rand categorical kernel ess X square shifted_square (start self).

(** A resampling inside the loop, on weights that are not all ones. *)
Definition resampled : result (particles * list nat) * world rng :=
  resample Qexp rand categorical pool (repeat (of_nat 2) 4)
    (controlled (start resampling_config) s1).

Definition resampled_particles : particles :=
  match fst resampled with Ok (X', _) => X' | Raise _ => [] end.

Definition resampled_indexes : list nat :=
  match fst resampled with Ok (_, indexes) => indexes | Raise _ => [] end.






(** The outcome of the run on [config]: the value returned and the world. *)
Definition outcome : result (option (particles * vec)) * world rng :=
  Eval vm_compute in run config pool.

Definition final_weights : vec :=
  Eval vm_compute in
    match fst (run config pool) with
    | Ok (Some (_, A)) => A
    | _ => []
    end.

Definition final_particles : particles :=
  Eval vm_compute in
    match fst (run config pool) with
    | Ok (Some (X, _)) => X
    | _ => []
    end.

End Demo.

(** * Properties *)

(** ** Scalars and order *)

Lemma Qcltb_lt (p q : Qc) : Qcltb p q = true <-> (p < q)%Q.
Proof. unfold Qcltb, Qlt. apply Z.ltb_lt. Qed.

Lemma Qcleb_le (p q : Qc) : Qcleb p q = true <-> (p <= q)%Q.
Proof. unfold Qcleb, Qle. apply Z.leb_le. Qed.

Lemma Qcltb_ge (p q : Qc) : Qcltb p q = false <-> (q <= p)%Q.
Proof.
  unfold Qcltb, Qle. rewrite Z.ltb_ge. reflexivity.
Qed.

Lemma Qczerob_false (p : Qc) : Qczerob p = false <-> ~ (p == 0)%Q.
Proof.
  unfold Qczerob, Qeq. simpl. rewrite Z.eqb_neq.
  split; intros H H'; apply H; lia.
Qed.

Lemma scalar_eqb_eq (a b : scalar) : scalar_eqb a b = true <-> a = b.
Proof.
  destruct a as [p|], b as [q|]; simpl; split; intro H;
    try discriminate; try reflexivity.
  - apply Qc_eq_bool_correct in H. now subst.
  - injection H as ->. unfold Qc_eq_bool.
    destruct (Qc_eq_dec q q); [reflexivity | congruence].
Qed.

Lemma list_eqb_eq {T : Type} (eqb : T -> T -> bool) :
  (forall a b, eqb a b = true <-> a = b) ->
  forall l1 l2, list_eqb eqb l1 l2 = true <-> l1 = l2.
Proof.
  intros Heq. induction l1 as [|a l1 IH]; destruct l2 as [|b l2]; simpl;
    split; intro H; try discriminate; try reflexivity.
  - apply andb_true_iff in H as [H1 H2].
    apply Heq in H1. apply IH in H2. now subst.
  - injection H as -> ->. apply andb_true_iff. split.
    + now apply Heq.
    + now apply IH.
Qed.

Lemma vec_eqb_eq (a b : vec) : vec_eqb a b = true <-> a = b.
Proof. apply list_eqb_eq, scalar_eqb_eq. Qed.

Lemma particles_eqb_eq (a b : particles) : particles_eqb a b = true <-> a = b.
Proof. apply list_eqb_eq, vec_eqb_eq. Qed.

(** Evaluates the rational constants of the source in the hypotheses. *)
Ltac eval_consts :=
  repeat match goal with
         | H : context [this (Q2Qc (?n # ?d))] |- _ =>
             let v := eval vm_compute in (this (Q2Qc (n # d))) in
             progress change (this (Q2Qc (n # d))) with v in H
         end.

(** ** Step-size controller *)



(** ** Energy interpolation *)










(** ** The input filter *)

Lemma select_map_filter {T : Type} (f : scalar -> bool) (X : list T) (E : vec) :
  select X (map f E) = map fst (filter (fun p => f (snd p)) (combine X E)).
Proof.
  revert E. induction X as [|x X IH]; intros [|e E]; simpl; try reflexivity.
  destruct (f e); simpl; now rewrite IH.
Qed.

Section InitFacts.

Variable Qexp : Qc -> Qc.
Variable rng : Type.
Variable rand : rng -> Qc * rng.
Variable categorical : rng -> vec -> nat * rng.
Variable mcmc_kernel :
  SMCSampler -> energy_fn -> energy_fn -> scalar -> particles -> vec ->
  scalar -> particles * vec * vec.
Variable sampling_efficiency : vec -> scalar.

(** C9: with a cutoff configured and one target energy per particle, the
    pool that leaves the initial filter, and with which the main loop of
    [sample] starts, is made of exactly the input particles whose target
    energy is strictly below the cutoff, in their original order. *)
Theorem sample_init_below_cutoff
  (w : world rng) (X : particles) (source_energy target_energy : energy_fn)
  (cutoff : scalar) :
  input_energy_cutoff (w_self w) = Some cutoff ->
  length (target_energy X) = length X ->
  let kept := below_cutoff X (target_energy X) cutoff in
  let w' := mkWorld (w_self w) (w_rng w) (w_log w ++ [Clipping]) in
  sample_init X target_energy w = (Ok kept, w') /\
  (enabled (w_self w) = true ->
   let steps := enumerate (removelast (init_timesteps (w_self w))) in
   sample Qexp rand categorical mcmc_kernel sampling_efficiency
     X source_energy target_energy w =
   bind (smc_loop Qexp rand categorical mcmc_kernel sampling_efficiency
           source_energy target_energy steps
           (mkLoop kept (ones (length kept)) (seq 0 (length kept)) s0))
        (final_resampling Qexp rand categorical steps kept) w').
Proof.
  intros Hcut Hlen kept w'.
  assert (Hinit : sample_init X target_energy w = (Ok kept, w')).
  { unfold sample_init, bind, get_self, lift, logging, ret, mask_index.
    rewrite Hcut, length_map, Hlen, Nat.eqb_refl.
    unfold kept. now rewrite select_map_filter. }
  split; [exact Hinit|].
  intros Hen steps. unfold sample.
  unfold bind at 1. unfold get_self at 1. rewrite Hen. cbn [negb].
  unfold bind at 1. rewrite Hinit. reflexivity.
Qed.

End InitFacts.

Lemma sample_init_below_cutoff_witness :
  sample_init Demo.cutoff_pool Demo.square (Demo.start Demo.cutoff_config) =
  (Ok (below_cutoff Demo.cutoff_pool (Demo.square Demo.cutoff_pool) (of_nat 4)),
   add_log (Demo.start Demo.cutoff_config) [Clipping]).
Proof.
  apply (@sample_init_below_cutoff Demo.Qexp Demo.rng Demo.rand Demo.categorical
           Demo.kernel Demo.ess (Demo.start Demo.cutoff_config)
           Demo.cutoff_pool Demo.square Demo.square (of_nat 4) eq_refl eq_refl).
Defined.

Example below_cutoff_demo :
  particles_eqb
    (below_cutoff Demo.cutoff_pool (Demo.square Demo.cutoff_pool) (of_nat 4))
    [[of_nat 0]; [of_nat 1]] = true.
Proof. vm_compute. reflexivity. Qed.

(** ** Slicing into batches *)

Lemma batches_pos {T : Type} (b : nat) (X : list T) :
  0 < b -> batches b X = Ok (batch_list b X).
Proof. destruct b; [lia|reflexivity]. Qed.

Lemma ceil_div_small (n b : nat) : 0 < n -> n <= b -> (n + b - 1) / b = 1.
Proof.
  intros Hn Hb. symmetry. apply Nat.div_unique with (r := n - 1); lia.
Qed.

Lemma ceil_div_step (n b : nat) :
  0 < b -> b < n -> (n + b - 1) / b = S ((n - b + b - 1) / b).
Proof.
  intros Hb Hn.
  replace (n + b - 1) with ((n - b + b - 1) + 1 * b) by lia.
  rewrite Nat.div_add by lia. lia.
Qed.

Lemma ceil_div_0 (b : nat) : 0 < b -> (0 + b - 1) / b = 0.
Proof. intros Hb. apply Nat.div_small. lia. Qed.

Lemma batch_list_nil {T : Type} (b : nat) : 0 < b -> batch_list b (@nil T) = [].
Proof.
  intros Hb. unfold batch_list, range_step. simpl length.
  now rewrite ceil_div_0.
Qed.

Lemma batch_list_cons {T : Type} (b : nat) (X : list T) :
  0 < b -> X <> [] ->
  batch_list b X = firstn b X :: batch_list b (skipn b X).
Proof.
  intros Hb HX. unfold batch_list, range_step.
  assert (Hn : 0 < length X) by (destruct X; [congruence|simpl; lia]).
  rewrite length_skipn.
  destruct (le_lt_dec (length X) b) as [Hle|Hlt].
  - rewrite ceil_div_small by lia.
    replace (length X - b) with 0 by lia. rewrite ceil_div_0 by lia.
    reflexivity.
  - rewrite ceil_div_step by lia. cbn [seq map]. f_equal.
    rewrite <- seq_shift, !map_map. apply map_ext. intros k.
    unfold slice. rewrite skipn_skipn. do 2 f_equal. lia.
Qed.

(** Induction on a pool, one batch at a time. *)
Lemma batch_ind {T : Type} (b : nat) (P : list T -> Prop) :
  0 < b ->
  P [] ->
  (forall X, X <> [] -> P (skipn b X) -> P X) ->
  forall X, P X.
Proof.
  intros Hb Hnil Hstep X.
  remember (length X) as n eqn:Hn. revert X Hn.
  induction n as [n IH] using lt_wf_ind. intros X Hn.
  destruct X as [|x X']; [exact Hnil|].
  apply Hstep; [discriminate|].
  apply (IH (length (skipn b (x :: X')))); [|reflexivity].
  rewrite length_skipn. subst n. cbn [length]. lia.
Qed.

Lemma concat_batch_list {T : Type} (b : nat) (X : list T) :
  0 < b -> concat (batch_list b X) = X.
Proof.
  intros Hb. pattern X. apply (batch_ind (b := b)); [exact Hb| |].
  - now rewrite batch_list_nil.
  - intros X0 HX IH. rewrite batch_list_cons by assumption.
    simpl. rewrite IH. apply firstn_skipn.
Qed.

Lemma batch_list_eq_nil {T : Type} (b : nat) (X : list T) :
  0 < b -> batch_list b X = [] -> X = [].
Proof.
  intros Hb H. destruct X as [|x X]; [reflexivity|].
  rewrite batch_list_cons in H by (assumption || discriminate). discriminate.
Qed.

Example batch_list_demo :
  batch_list 2 [1; 2; 3; 4; 5] = [[1; 2]; [3; 4]; [5]].
Proof. reflexivity. Qed.

(** ** The batch loop *)

Lemma add_log_nil {rng : Type} (w : world rng) : add_log w [] = w.
Proof. destruct w. unfold add_log. simpl. now rewrite app_nil_r. Qed.

Lemma add_log_app {rng : Type} (w : world rng) (l1 l2 : list event) :
  add_log (add_log w l1) l2 = add_log w (l1 ++ l2).
Proof. unfold add_log. simpl. now rewrite app_assoc. Qed.

Lemma kernel_calls_app (l1 l2 : list event) :
  kernel_calls (l1 ++ l2) = kernel_calls l1 ++ kernel_calls l2.
Proof.
  induction l1 as [|e l1 IH]; [reflexivity|].
  destruct e; simpl; now rewrite IH.
Qed.

Lemma resamplings_at_app (j : nat) (l1 l2 : list event) :
  resamplings_at j (l1 ++ l2) = resamplings_at j l1 ++ resamplings_at j l2.
Proof.
  induction l1 as [|e l1 IH]; [reflexivity|].
  destruct e; simpl; try now rewrite IH.
  destruct (j0 =? j); simpl; now rewrite IH.
Qed.






(** ** Exact arithmetic on finite entries *)

Lemma this_Q2Qc (q : Q) : (this (Q2Qc q) == q)%Q.
Proof. apply Qred_correct. Qed.

Lemma this_plus (a b : Qc) : (this (a + b)%Qc == a + b)%Q.
Proof. apply Qred_correct. Qed.

Lemma this_mult (a b : Qc) : (this (a * b)%Qc == a * b)%Q.
Proof. apply Qred_correct. Qed.

Lemma this_inv (a : Qc) : (this (/ a)%Qc == / a)%Q.
Proof. apply Qred_correct. Qed.

Lemma this_div (a b : Qc) : (this (a / b)%Qc == a / b)%Q.
Proof.
  unfold Qcdiv. rewrite this_mult, this_inv. reflexivity.
Qed.

Lemma this_of_nat (n : nat) :
  (this (Q2Qc (inject_Z (Z.of_nat n))) == inject_Z (Z.of_nat n))%Q.
Proof. apply this_Q2Qc. Qed.

Lemma Qc_of_nat_pos (n : nat) :
  0 < n -> (0 < this (Q2Qc (inject_Z (Z.of_nat n))))%Q.
Proof.
  intros Hn. rewrite this_of_nat.
  change 0%Q with (inject_Z 0). rewrite <- Zlt_Qlt. lia.
Qed.

Lemma Qczerob_of_nat (n : nat) :
  0 < n -> Qczerob (Q2Qc (inject_Z (Z.of_nat n))) = false.
Proof.
  intros Hn. apply Qczerob_false. intros H.
  pose proof (Qc_of_nat_pos Hn) as Hpos. rewrite H in Hpos.
  now apply Qlt_irrefl in Hpos.
Qed.

Lemma sdiv_of_nat (p : Qc) (n : nat) :
  0 < n ->
  sdiv (Num p) (of_nat n) = Num (p / Q2Qc (inject_Z (Z.of_nat n)))%Qc.
Proof.
  intros Hn. unfold sdiv, of_nat, of_Q. now rewrite Qczerob_of_nat.
Qed.









(** ** Searching the cumulative bins *)

Lemma searchsorted_le (c : vec) (v : scalar) : searchsorted c v <= length c.
Proof.
  induction c as [|ci c IH]; simpl; [lia|]. destruct (sgeb ci v); lia.
Qed.




Lemma gather_Ok_length {T : Type} (x : list T) (indexes : list nat) (r : list T) :
  gather x indexes = Ok r ->
  length r = length indexes /\ Forall (fun i => i < length x) indexes.
Proof.
  revert r. induction indexes as [|i rest IH]; intros r H; simpl in H.
  - injection H as <-. split; [reflexivity|constructor].
  - destruct (nth_error x i) as [xi|] eqn:Hxi; [|discriminate].
    destruct (gather x rest) as [r'|] eqn:Hr; [|discriminate].
    simpl in H. injection H as <-.
    destruct (IH r' eq_refl) as [Hlen Hall]. split; [simpl; lia|].
    constructor; [|exact Hall].
    apply nth_error_Some. congruence.
Qed.
Section DriverFacts.

Variable Qexp : Qc -> Qc.
Variable rng : Type.
Variable rand : rng -> Qc * rng.
Variable categorical : rng -> vec -> nat * rng.
Variable mcmc_kernel :
  SMCSampler -> energy_fn -> energy_fn -> scalar -> particles -> vec ->
  scalar -> particles * vec * vec.
Variable sampling_efficiency : vec -> scalar.
Variables source_energy target_energy : energy_fn.

(** What the batch loop computes. *)
Lemma batch_loop_run (t dt : scalar) (zipped : list (particles * vec))
  (w : world rng) :
  batch_loop mcmc_kernel source_energy target_energy t dt zipped w =
  (if existsb (fun z => has_nan (fst z)) zipped
   then Raise (ValueError "X contains NaNs")
   else Ok (map (fun z => mcmc_kernel (w_self w) source_energy target_energy
                            t (fst z) (snd z) dt) zipped),
   add_log w (logged_calls t dt zipped)).
Proof.
  revert w. induction zipped as [|[Xb Ab] rest IH]; intros w.
  - simpl. unfold ret. now rewrite add_log_nil.
  - cbn [batch_loop existsb fst snd]. unfold logged_calls. cbn [clean_prefix fst].
    destruct (has_nan Xb) eqn:Hnan.
    + unfold raise. cbn [map orb]. now rewrite add_log_nil.
    + unfold bind at 1. unfold get_self. unfold bind at 1. unfold logging.
      unfold bind at 1. rewrite IH. cbn [orb w_self].
      destruct (existsb _ rest).
      * unfold add_log. cbn [w_self w_rng w_log map]. now rewrite <- app_assoc.
      * unfold ret, add_log. cbn [w_self w_rng w_log map]. now rewrite <- app_assoc.
Qed.

(** What the first half of an iteration computes. *)
Lemma move_batches_run (st : loop_state) (t : scalar) (w : world rng) :
  0 < batch_size (w_self w) ->
  let b := batch_size (w_self w) in
  let X_batches := batch_list b (st_X st) in
  let A_batches := batch_list b (st_A st) in
  let dt := ssub t (st_t_previous st) in
  let zipped := combine X_batches A_batches in
  let moved := map (fun z => mcmc_kernel (w_self w) source_energy target_energy
                               t (fst z) (snd z) dt) zipped in
  move_batches mcmc_kernel source_energy target_energy st t w =
  (if existsb (fun z => has_nan (fst z)) zipped
   then Raise (ValueError "X contains NaNs")
   else
     rbind (cat (updated (map (fun m => fst (fst m)) moved) X_batches)) (fun X =>
     rbind (cat (updated (map (fun m => snd (fst m)) moved) A_batches)) (fun A =>
     rbind (cat (map (fun m => snd m) moved)) (fun rates =>
     Ok (X, A, smean rates)))),
   add_log w (logged_calls t dt zipped)).
Proof.
  intros Hb b X_batches A_batches dt zipped moved.
  unfold move_batches. unfold bind at 1. unfold get_self.
  unfold bind at 1. unfold lift at 1. rewrite batches_pos by exact Hb.
  unfold bind at 1. unfold lift at 1. rewrite batches_pos by exact Hb.
  unfold bind at 1. rewrite batch_loop_run.
  fold b X_batches A_batches dt zipped moved.
  unfold vec, particles, particle.
  match goal with |- context [if ?c then _ else _] => destruct c end;
    [reflexivity|].
  unfold bind, lift, ret.
  repeat match goal with
         | |- context [rbind ?r _] => destruct r; cbn [rbind]; try reflexivity
         end.
Qed.

(** An iteration is its first half followed by its second half. *)
Lemma smc_step_run (st : loop_state) (j : nat) (t : scalar) (w : world rng) :
  smc_step Qexp rand categorical mcmc_kernel sampling_efficiency
    source_energy target_energy st j t w =
  match move_batches mcmc_kernel source_energy target_energy st t
          (add_log w [OuterLoop j]) with
  | (Ok (X, A, acceptance_rate), w1) =>
      finish_step Qexp rand categorical sampling_efficiency
        st j t X A acceptance_rate w1
  | (Raise e, w1) => (Raise e, w1)
  end.
Proof.
  unfold smc_step. unfold bind at 1. unfold logging at 1.
  unfold bind at 1. fold (add_log w [OuterLoop j]).
  destruct (move_batches _ _ _ _ _ _) as [[[[X A] r]|e] w1]; reflexivity.
Qed.




Lemma smc_loop_cons (j : nat) (t : scalar) (rest : list (nat * scalar))
  (st : loop_state) (w : world rng) :
  smc_loop Qexp rand categorical mcmc_kernel sampling_efficiency
    source_energy target_energy ((j, t) :: rest) st w =
  match smc_step Qexp rand categorical mcmc_kernel sampling_efficiency
          source_energy target_energy st j t w with
  | (Ok st', w') =>
      smc_loop Qexp rand categorical mcmc_kernel sampling_efficiency
        source_energy target_energy rest st' w'
  | (Raise e, w') => (Raise e, w')
  end.
Proof. reflexivity. Qed.

(** [sample] on an enabled sampler: filter, loop, final resampling. *)
Lemma sample_run (X : particles) (w : world rng) :
  enabled (w_self w) = true ->
  let steps := enumerate (removelast (init_timesteps (w_self w))) in
  sample Qexp rand categorical mcmc_kernel sampling_efficiency
    X source_energy target_energy w =
  match sample_init X target_energy w with
  | (Ok pool, w0) =>
      match smc_loop Qexp rand categorical mcmc_kernel sampling_efficiency
              source_energy target_energy steps
              (mkLoop pool (ones (length pool)) (seq 0 (length pool)) s0) w0 with
      | (Ok st, w1) => final_resampling Qexp rand categorical steps pool st w1
      | (Raise e, w1) => (Raise e, w1)
      end
  | (Raise e, w0) => (Raise e, w0)
  end.
Proof.
  intros Hen steps. unfold sample.
  unfold bind at 1. unfold get_self at 1. rewrite Hen. cbn [negb].
  unfold bind at 1.
  destruct (sample_init X target_energy w) as [[pool|e] w0]; [|reflexivity].
  reflexivity.
Qed.


(** ** Resampling *)

Lemma multinomial_run (p : vec) (n : nat) (w : world rng) :
  multinomial categorical p n w =
  (Ok (fst (draws categorical (w_rng w) p n)),
   mkWorld (w_self w) (snd (draws categorical (w_rng w) p n)) (w_log w)).
Proof.
  revert w. induction n as [|n IH]; intros w.
  - destruct w; reflexivity.
  - cbn [multinomial draws]. unfold bind at 1. unfold draw_categorical.
    destruct (categorical (w_rng w) p) as [i g1].
    unfold bind at 1. rewrite IH. cbn [w_rng w_self w_log].
    destruct (draws categorical g1 p n) as [rest g2]. reflexivity.
Qed.

(** What [resample] computes. *)
Lemma resample_run (x : particles) (logw : vec) (w : world rng) :
  resample Qexp rand categorical x logw w =
  let (indexes, g) :=
    resample_indexes Qexp rand categorical (w_self w) x logw (w_rng w) in
  (rbind (gather x indexes) (fun x_selected => Ok (x_selected, indexes)),
   mkWorld (w_self w) g (w_log w)).
Proof.
  unfold resample, resample_indexes.
  unfold bind at 1. unfold get_self. unfold bind at 1.
  destruct (systematic_resampling (w_self w)).
  - unfold bind at 1. unfold draw_rand.
    destruct (rand (w_rng w)) as [r g]. unfold ret, bind, lift.
    fold (systematic_indexes Qexp logw r).
    destruct (gather x (systematic_indexes Qexp logw r)); reflexivity.
  - rewrite multinomial_run.
    destruct (draws categorical (w_rng w) (softmax Qexp logw) (length x))
      as [indexes g].
    unfold bind, lift, ret. cbn [fst snd].
    destruct (gather x indexes); reflexivity.
Qed.

Hypothesis Qexp_pos : forall q, (0 < Qexp q)%Qc.






Lemma nth_error_map_seq {T : Type} (f : nat -> T) (n k : nat) :
  k < n -> nth_error (map f (seq 0 n)) k = Some (f k).
Proof.
  intros Hk. rewrite nth_error_map.
  rewrite (nth_error_nth' (seq 0 n) 0) by (now rewrite length_seq).
  now rewrite seq_nth.
Qed.


Lemma length_systematic_indexes (logw : vec) (r : Qc) :
  length (systematic_indexes Qexp logw r) = length logw.
Proof.
  unfold systematic_indexes, systematic_positions.
  now rewrite !length_map, length_seq.
Qed.

Lemma nth_systematic_indexes (logw : vec) (r : Qc) (k : nat) :
  k < length logw ->
  nth_error (systematic_indexes Qexp logw r) k =
  Some (searchsorted (cumsum (softmax Qexp logw))
          (sadd (sdiv (Num r) (of_nat (length logw)))
                (sdiv (of_nat k) (of_nat (length logw))))).
Proof.
  intros Hk. unfold systematic_indexes, systematic_positions.
  rewrite map_map. now rewrite nth_error_map_seq.
Qed.









(** ** The second half of an iteration *)

Lemma same_config_refl (a : SMCSampler) : same_config a a.
Proof. reflexivity. Qed.

Lemma same_config_trans (a b c : SMCSampler) :
  same_config a b -> same_config b c -> same_config a c.
Proof. unfold same_config. congruence. Qed.

Lemma same_config_update (a : SMCSampler) (r : scalar) :
  same_config a (update_step_size a r).
Proof.
  unfold same_config, update_step_size.
  destruct (sgtb r _); [reflexivity|]. destruct (sltb r _); reflexivity.
Qed.

Lemma same_config_fields (a b : SMCSampler) :
  same_config a b ->
  batch_size a = batch_size b /\ num_timesteps a = num_timesteps b /\
  ess_threshold a = ess_threshold b /\
  systematic_resampling a = systematic_resampling b /\
  adaptive_step_size a = adaptive_step_size b /\ enabled a = enabled b /\
  input_energy_cutoff a = input_energy_cutoff b.
Proof.
  unfold same_config, set_langevin_eps. intros H.
  injection H as -> -> -> -> -> _ -> _ _ ->. repeat split.
Qed.

Lemma controlled_frame (w : world rng) (r : scalar) :
  same_config (w_self w) (w_self (controlled w r)) /\
  w_rng (controlled w r) = w_rng w /\ w_log (controlled w r) = w_log w.
Proof.
  unfold controlled. destruct (adaptive_step_size (w_self w)); cbn.
  - split; [apply same_config_update | split; reflexivity].
  - split; [apply same_config_refl | split; reflexivity].
Qed.

(** What the second half of an iteration computes. *)
Lemma finish_step_run (st : loop_state) (j : nat) (t : scalar)
  (X : particles) (A : vec) (r : scalar) (w : world rng) :
  finish_step Qexp rand categorical sampling_efficiency st j t X A r w =
  let w1 := controlled w r in
  if has_nan X then (Raise (ValueError "X has NaNs"), w1)
  else if vec_has_nan A then (Raise (ValueError "A has NaNs"), w1)
  else if sltb (sampling_efficiency A) (ess_threshold (w_self w1)) &&
          negb (j + 1 =? num_timesteps (w_self w))
  then
    match resample Qexp rand categorical X A w1 with
    | (Ok (X', indexes), w2) =>
        (rbind (gather (st_particle_ids st) indexes)
           (fun ids => Ok (mkLoop X' (ones_like A) ids t)),
         add_log w2 [Resampling j indexes])
    | (Raise e, w2) => (Raise e, w2)
    end
  else (Ok (mkLoop X A (st_particle_ids st) t), w1).
Proof.
  unfold finish_step. unfold bind at 1. unfold get_self at 1.
  unfold bind at 1.
  assert (Hctl : (if adaptive_step_size (w_self w)
                  then put_self (update_step_size (w_self w) r)
                  else ret tt) w = (Ok tt, controlled w r)).
  { unfold controlled, put_self, ret.
    destruct (adaptive_step_size (w_self w)); reflexivity. }
  rewrite Hctl. cbv zeta.
  destruct (has_nan X); [reflexivity|].
  destruct (vec_has_nan A); [reflexivity|].
  unfold bind at 1. unfold get_self at 1.
  destruct (sltb _ _ && negb _); [|reflexivity].
  unfold bind at 1.
  destruct (resample Qexp rand categorical X A (controlled w r))
    as [[[X' indexes]|e] w2]; [|reflexivity].
  unfold bind at 1. unfold logging at 1. unfold bind, lift, ret.
  fold (add_log w2 [Resampling j indexes]).
  destruct (gather (st_particle_ids st) indexes); reflexivity.
Qed.

Lemma resample_frame (x : particles) (logw : vec) (w : world rng) :
  w_self (snd (resample Qexp rand categorical x logw w)) = w_self w /\
  w_log (snd (resample Qexp rand categorical x logw w)) = w_log w.
Proof.
  rewrite resample_run.
  destruct (resample_indexes _ _ _ _ _ _ _) as [indexes g]. split; reflexivity.
Qed.

(** ** What an iteration logs *)

Lemma kernel_calls_logged (t dt : scalar) (zipped : list (particles * vec)) :
  kernel_calls (logged_calls t dt zipped) =
  repeat (t, dt) (length (clean_prefix zipped)).
Proof.
  unfold logged_calls. induction (clean_prefix zipped) as [|z l IH];
    [reflexivity|]. simpl. now rewrite IH.
Qed.

Lemma resamplings_at_logged (J : nat) (t dt : scalar)
  (zipped : list (particles * vec)) :
  resamplings_at J (logged_calls t dt zipped) = [].
Proof.
  unfold logged_calls. induction (clean_prefix zipped) as [|z l IH];
    [reflexivity|]. simpl. exact IH.
Qed.

Lemma clean_prefix_all (zipped : list (particles * vec)) :
  existsb (fun z => has_nan (fst z)) zipped = false ->
  clean_prefix zipped = zipped.
Proof.
  induction zipped as [|z rest IH]; [reflexivity|]. simpl.
  intros H. apply orb_false_iff in H as [Hz Hrest].
  rewrite Hz. now rewrite IH.
Qed.

Lemma move_batches_effects (st : loop_state) (t : scalar) (w : world rng) :
  let res := move_batches mcmc_kernel source_energy target_energy st t w in
  w_self (snd res) = w_self w /\
  (exists n,
      kernel_calls (w_log (snd res)) =
      kernel_calls (w_log w) ++ repeat (t, ssub t (st_t_previous st)) n /\
      (forall v, fst res = Ok v -> 1 <= n)) /\
  (forall J, resamplings_at J (w_log (snd res)) = resamplings_at J (w_log w)).
Proof.
  intros res. subst res.
  destruct (Nat.eq_dec (batch_size (w_self w)) 0) as [Hb|Hb].
  - unfold move_batches, bind, get_self, lift. rewrite Hb. cbn.
    split; [reflexivity|]. split; [|reflexivity].
    exists 0. cbn. rewrite app_nil_r. split; [reflexivity|discriminate].
  - rewrite move_batches_run by lia. cbn [fst snd add_log w_self w_log].
    split; [reflexivity|]. split.
    + eexists. rewrite kernel_calls_app, kernel_calls_logged.
      split; [reflexivity|]. intros v Hv.
      match type of Hv with (if ?c then _ else _) = _ =>
        destruct c eqn:Hnan; [discriminate|] end.
      rewrite clean_prefix_all by exact Hnan.
      match type of Hv with context [cat (map _ ?mv)] =>
        destruct mv as [|m0 ms] eqn:Hm end.
      * exfalso.
        repeat match type of Hv with
               | context [rbind (cat (updated ?a ?b)) _] =>
                   destruct (cat (updated a b)); cbn [rbind] in Hv
               end; cbn in Hv; discriminate.
      * apply (f_equal (@length _)) in Hm. rewrite length_map in Hm.
        rewrite Hm. simpl. lia.
    + intros J. now rewrite resamplings_at_app, resamplings_at_logged, app_nil_r.
Qed.

Lemma finish_step_effects (st : loop_state) (j : nat) (t : scalar)
  (X : particles) (A : vec) (r : scalar) (w : world rng) :
  let res := finish_step Qexp rand categorical sampling_efficiency
               st j t X A r w in
  same_config (w_self w) (w_self (snd res)) /\
  kernel_calls (w_log (snd res)) = kernel_calls (w_log w) /\
  (forall J, J <> j \/ j + 1 = num_timesteps (w_self w) ->
             resamplings_at J (w_log (snd res)) = resamplings_at J (w_log w)) /\
  (forall st', fst res = Ok st' -> st_t_previous st' = t).
Proof.
  intros res. subst res. rewrite finish_step_run. cbv zeta.
  destruct (controlled_frame w r) as [Hcfg [_ Hlog]].
  destruct (has_nan X); [cbn [fst snd]; rewrite Hlog; repeat split; auto; discriminate|].
  destruct (vec_has_nan A); [cbn [fst snd]; rewrite Hlog; repeat split; auto; discriminate|].
  destruct (sltb _ _ && negb (j + 1 =? num_timesteps (w_self w))) eqn:Htrig.
  - apply andb_true_iff in Htrig as [_ Hlast].
    apply negb_true_iff, Nat.eqb_neq in Hlast.
    pose proof (resample_frame X A (controlled w r)) as [Hself Hrlog].
    destruct (resample Qexp rand categorical X A (controlled w r))
      as [[[X' indexes]|e] w2]; cbn [fst snd] in *.
    + unfold add_log. cbn [w_self w_log].
      rewrite Hself, Hrlog, Hlog. repeat split.
      * exact Hcfg.
      * rewrite kernel_calls_app. cbn. now rewrite app_nil_r.
      * intros J [HJ|HJ]; [|lia].
        rewrite resamplings_at_app. cbn.
        destruct (Nat.eqb_spec j J); [congruence|]. now rewrite app_nil_r.
      * intros st' Hst. destruct (gather (st_particle_ids st) indexes);
          cbn [rbind] in Hst; [|discriminate]. now injection Hst as <-.
    + rewrite Hself, Hrlog, Hlog. repeat split; auto; discriminate.
  - cbn [fst snd]. rewrite Hlog. repeat split; auto.
    intros st' Hst. now injection Hst as <-.
Qed.

Lemma smc_step_effects (st : loop_state) (j : nat) (t : scalar) (w : world rng) :
  let res := smc_step Qexp rand categorical mcmc_kernel sampling_efficiency
               source_energy target_energy st j t w in
  same_config (w_self w) (w_self (snd res)) /\
  (exists n,
      kernel_calls (w_log (snd res)) =
      kernel_calls (w_log w) ++ repeat (t, ssub t (st_t_previous st)) n /\
      (forall st', fst res = Ok st' -> 1 <= n)) /\
  (forall J, J <> j \/ j + 1 = num_timesteps (w_self w) ->
             resamplings_at J (w_log (snd res)) = resamplings_at J (w_log w)) /\
  (forall st', fst res = Ok st' -> st_t_previous st' = t).
Proof.
  intros res. subst res. rewrite smc_step_run.
  pose proof (move_batches_effects st t (add_log w [OuterLoop j]))
    as [Hself [[n [Hcalls Hn]] Hres]].
  cbv zeta in *.
  destruct (move_batches mcmc_kernel source_energy target_energy st t
              (add_log w [OuterLoop j])) as [[[[X A] r]|e] w1];
    cbn [fst snd] in *.
  - pose proof (finish_step_effects st j t X A r w1) as [Hcfg [Hk [Hr Ht]]].
    cbv zeta in *. cbn [add_log w_self w_log] in *. rewrite Hself in *.
    split; [|split; [|split]].
    + exact Hcfg.
    + exists n. rewrite Hk, Hcalls, kernel_calls_app. cbn.
      rewrite app_nil_r. split; [reflexivity|]. intros st' _. now apply (Hn _ eq_refl).
    + intros J HJ. rewrite (Hr J HJ), Hres, resamplings_at_app. cbn.
      now rewrite app_nil_r.
    + exact Ht.
  - cbn [add_log w_self w_log] in *. rewrite Hself.
    split; [|split; [|split]].
    + apply same_config_refl.
    + exists n. rewrite Hcalls, kernel_calls_app. cbn. rewrite app_nil_r.
      split; [reflexivity|discriminate].
    + intros J _. rewrite Hres, resamplings_at_app. cbn. now rewrite app_nil_r.
    + discriminate.
Qed.

(** ** What the loop logs *)


(** ** The schedule *)

Lemma removelast_map_seq {T : Type} (f : nat -> T) (n : nat) :
  removelast (map f (seq 0 (n + 1))) = map f (seq 0 n).
Proof.
  rewrite seq_app, map_app. cbn [seq map]. apply removelast_last.
Qed.

Lemma Qc_of_nat_S (n : nat) :
  Q2Qc (inject_Z (Z.of_nat (S n))) = (Q2Qc (inject_Z (Z.of_nat n)) + 1)%Qc.
Proof.
  apply Qc_is_canon.
  rewrite this_plus, !this_Q2Qc. change (this 1%Qc) with 1%Q.
  rewrite Nat2Z.inj_succ. unfold Z.succ. rewrite inject_Z_plus. reflexivity.
Qed.

(** The time of index [i] in [linspace(0, 1, T + 1)] is [i / T]. *)
Lemma linspace_entry (T i : nat) :
  0 < T ->
  sadd s0 (smul (of_nat i) (sdiv (ssub s1 s0) (of_nat T))) = schedule_time T i.
Proof.
  intros HT. unfold schedule_time.
  change (of_nat i) with (Num (Q2Qc (inject_Z (Z.of_nat i)))).
  change (ssub s1 s0) with (Num (Q2Qc 1 - Q2Qc 0)%Qc).
  rewrite !sdiv_of_nat by exact HT. cbn [smul sadd lift2 s0 of_Q]. f_equal.
  change (Q2Qc 0) with 0%Qc. change (Q2Qc 1) with 1%Qc.
  unfold Qcdiv. ring.
Qed.

Lemma init_timesteps_schedule (self : SMCSampler) :
  0 < num_timesteps self ->
  removelast (init_timesteps self) =
  map (schedule_time (num_timesteps self)) (seq 0 (num_timesteps self)).
Proof.
  intros HT. unfold init_timesteps, linspace.
  destruct (num_timesteps self + 1) as [|[|m]] eqn:Hm; try lia.
  rewrite <- Hm. replace (num_timesteps self + 1 - 1) with (num_timesteps self) by lia.
  rewrite removelast_map_seq. apply map_ext. intros i.
  now apply linspace_entry.
Qed.

Lemma schedule_increments (T : nat) :
  0 < T ->
  increments s0 (map (schedule_time T) (seq 0 T)) = map (schedule_dt T) (seq 0 T).
Proof.
  intros HT.
  assert (Hgen : forall n k,
             increments (schedule_time T k) (map (schedule_time T) (seq (S k) n)) =
             map (schedule_dt T) (seq (S k) n)).
  { induction n as [|n IH]; intros k; [reflexivity|].
    cbn [seq map increments]. rewrite IH. f_equal.
    unfold schedule_time, schedule_dt.
    change (of_nat (S k)) with (Num (Q2Qc (inject_Z (Z.of_nat (S k))))).
    change (of_nat k) with (Num (Q2Qc (inject_Z (Z.of_nat k)))).
    change s1 with (Num (Q2Qc 1)).
    rewrite !sdiv_of_nat by exact HT. cbn [ssub lift2]. f_equal.
    rewrite Qc_of_nat_S. change (Q2Qc 1) with 1%Qc. unfold Qcdiv. ring. }
  destruct T as [|T]; [lia|]. cbn [seq map increments]. rewrite Hgen. f_equal.
  unfold schedule_time, schedule_dt.
  change (of_nat 0) with (Num (Q2Qc 0)).
  rewrite sdiv_of_nat by exact HT. change s0 with (Num 0%Qc).
  cbn [ssub lift2]. f_equal; change (Q2Qc 0) with 0%Qc; unfold Qcdiv; ring.
Qed.

Lemma enumerate_map_seq {T : Type} (f : nat -> T) (n : nat) :
  enumerate (map f (seq 0 n)) = map (fun j => (j, f j)) (seq 0 n).
Proof.
  unfold enumerate. rewrite length_map, length_seq.
  induction (seq 0 n) as [|a l IH]; [reflexivity|]. simpl. now rewrite IH.
Qed.

Lemma combine_map_same {S T U : Type} (f : S -> T) (g : S -> U) (l : list S) :
  combine (map f l) (map g l) = map (fun x => (f x, g x)) l.
Proof. induction l as [|a l IH]; [reflexivity|]. simpl. now rewrite IH. Qed.

Lemma combine_map_l {S T U : Type} (f : S -> T) (l : list S) (ns : list U) :
  combine (map f l) ns = map (fun p => (f (fst p), snd p)) (combine l ns).
Proof.
  revert ns. induction l as [|a l IH]; intros [|n ns]; try reflexivity.
  simpl. now rewrite IH.
Qed.

(** The steps of an enabled run and what the loop logs along them. *)
Lemma schedule_steps (self : SMCSampler) :
  0 < num_timesteps self ->
  let T := num_timesteps self in
  let steps := enumerate (removelast (init_timesteps self)) in
  steps = map (fun j => (j, schedule_time T j)) (seq 0 T) /\
  last_j steps = Some (T - 1) /\
  forall ns,
    flat_map (fun q => repeat (fst q) (snd q))
      (combine (combine (map snd steps) (increments s0 (map snd steps))) ns) =
    scheduled_calls T (combine (seq 0 T) ns).
Proof.
  intros HT T steps.
  assert (Hsteps : steps = map (fun j => (j, schedule_time T j)) (seq 0 T)).
  { unfold steps. rewrite init_timesteps_schedule by exact HT.
    apply enumerate_map_seq. }
  split; [exact Hsteps|]. split.
  - rewrite Hsteps. unfold last_j. rewrite <- map_rev.
    replace T with (T - 1 + 1) at 1 by lia.
    rewrite seq_app, rev_app_distr. reflexivity.
  - intros ns. rewrite Hsteps, map_map. cbn [snd].
    rewrite schedule_increments by exact HT.
    rewrite combine_map_same, combine_map_l.
    unfold scheduled_calls. rewrite flat_map_concat_map, map_map.
    now rewrite <- flat_map_concat_map.
Qed.

(** ** The filter and the final resampling *)

Lemma sample_init_effects (X : particles) (w : world rng) :
  let res := sample_init X target_energy w in
  w_self (snd res) = w_self w /\
  kernel_calls (w_log (snd res)) = kernel_calls (w_log w) /\
  (forall J, resamplings_at J (w_log (snd res)) = resamplings_at J (w_log w)).
Proof.
  intros res. subst res. unfold sample_init, bind, get_self, lift, logging, ret.
  destruct (input_energy_cutoff (w_self w)) as [cutoff|]; [|now repeat split].
  destruct (mask_index X _); cbn [fst snd w_self w_log]; [|now repeat split].
  split; [reflexivity|]. split.
  - rewrite kernel_calls_app. cbn. now rewrite app_nil_r.
  - intros J. rewrite resamplings_at_app. cbn. now rewrite app_nil_r.
Qed.

Lemma resample_Ok (x : particles) (logw : vec) (w w' : world rng)
  (x_selected : particles) (indexes : list nat) :
  resample Qexp rand categorical x logw w = (Ok (x_selected, indexes), w') ->
  gather x indexes = Ok x_selected.
Proof.
  rewrite resample_run.
  destruct (resample_indexes _ _ _ _ _ _ _) as [idx g].
  destruct (gather x idx) as [xs|e] eqn:Hg; cbn [rbind]; intros H;
    [|discriminate].
  injection H as <- <- _. exact Hg.
Qed.

(** What the final resampling computes. *)
Lemma final_resampling_run (steps : list (nat * scalar)) (pool : particles)
  (st : loop_state) (w : world rng) :
  final_resampling Qexp rand categorical steps pool st w =
  match resample Qexp rand categorical (st_X st) (st_A st) w with
  | (Ok (X', indexes), w1) =>
      match gather (st_particle_ids st) indexes with
      | Ok _ =>
          match last_j steps with
          | None => (Raise (NameError "name 'j' is not defined"), w1)
          | Some j =>
              (if negb (shape_eqb (shape X') (shape pool))
               then Raise (AssertionError "shape mismatch")
               else Ok (Some (X', st_A st)),
               add_log w1 [Resampling j indexes])
          end
      | Raise e => (Raise e, w1)
      end
  | (Raise e, w1) => (Raise e, w1)
  end.
Proof.
  unfold final_resampling. unfold bind at 1.
  destruct (resample Qexp rand categorical (st_X st) (st_A st) w)
    as [[[X' indexes]|e] w1]; [|reflexivity].
  unfold bind at 1. unfold lift at 1.
  destruct (gather (st_particle_ids st) indexes); [|reflexivity].
  destruct (last_j steps) as [j|]; [|reflexivity].
  unfold bind, logging, raise, ret. fold (add_log w1 [Resampling j indexes]).
  destruct (negb _); reflexivity.
Qed.




Lemma steps_without_schedule (self : SMCSampler) :
  num_timesteps self = 0 -> enumerate (removelast (init_timesteps self)) = [].
Proof. intros H. unfold init_timesteps. rewrite H. reflexivity. Qed.




(** ** Batching does not change the move *)




Lemma length_draws (g : rng) (p : vec) (n : nat) :
  length (fst (draws categorical g p n)) = n.
Proof.
  revert g. induction n as [|n IH]; intros g; [reflexivity|].
  cbn [draws]. destruct (categorical g p) as [i g1].
  specialize (IH g1). destruct (draws categorical g1 p n) as [rest g2].
  cbn [fst] in *. simpl. now rewrite IH.
Qed.


Section Local.

Variable move : scalar -> energy_fn -> energy_fn -> scalar -> scalar ->
                particle -> scalar -> particle * scalar * scalar.

Hypothesis kernel_is_local :
  forall self src tgt t x logw dt,
    mcmc_kernel self src tgt t x logw dt =
    let rows := map (fun p => move (langevin_eps self) src tgt t dt (fst p) (snd p))
                    (combine x logw) in
    (map (fun r => fst (fst r)) rows,
     map (fun r => snd (fst r)) rows,
     map (fun r => snd r) rows).




(** ** Two runs that differ in their batch size *)


Lemma sim_add_log (w1 w2 : world rng) (l1 l2 : list event) :
  sim w1 w2 -> sim (add_log w1 l1) (add_log w2 l2).
Proof. intros H. exact H. Qed.














End Local.


End DriverFacts.

(** ** The concrete instance *)





Example demo_run_returns :
  fst (Demo.run Demo.config Demo.pool) =
  Ok (Some (Demo.final_particles, Demo.final_weights)).
Proof. vm_compute. reflexivity. Qed.

Example demo_final_weights :
  vec_eqb Demo.final_weights (repeat (of_Q (5 # 2)) 4) = true.
Proof. vm_compute. reflexivity. Qed.

(** ** The theorems on the concrete instance *)









Example demo_kernel_calls :
  length (kernel_calls (w_log (snd (Demo.run Demo.config Demo.pool)))) = 8.
Proof. vm_compute. reflexivity. Qed.


(** * Further properties of the sampler *)

(** ** The warmup ramp of the step size *)

(** X1: [langevin_eps_fn]: for a finite non-negative step size and a time
    [t >= 0], the effective step size is finite, lies between zero and the
    step size, equals the step size from [t = warmup] on, and is zero at
    [t = 0] when the warmup is positive. *)
Theorem langevin_eps_fn_ramp (self : SMCSampler) (e t wq : Qc) :
  langevin_eps self = Num e -> warmup self = Num wq ->
  (0 <= e)%Q -> (0 <= t)%Q ->
  exists v : Qc,
    langevin_eps_fn self (Num t) = Num v /\
    (0 <= v)%Q /\ (v <= e)%Q /\
    ((wq <= t)%Q -> v = e) /\
    ((t == 0)%Q -> (0 < wq)%Q -> (v == 0)%Q).
Proof.
  intros He Hw He0 Ht0. unfold langevin_eps_fn. rewrite He, Hw.
  cbn [sltb smul lift2].
  destruct (Qcltb t wq) eqn:Hlt.
  - apply Qcltb_lt in Hlt.
    assert (Hwpos : (0 < wq)%Q) by lra.
    assert (Hz : Qczerob wq = false).
    { apply Qczerob_false. intros H. rewrite H in Hwpos.
      now apply Qlt_irrefl in Hwpos. }
    unfold sdiv. rewrite Hz. eexists. split; [reflexivity|].
    rewrite this_div, this_mult.
    assert (Hinv : (wq * / wq == 1)%Q) by (apply Qmult_inv_r; lra).
    assert (Hipos : (0 < / wq)%Q) by (now apply Qinv_lt_0_compat).
    unfold Qdiv. repeat split.
    + apply Qmult_le_0_compat; [apply Qmult_le_0_compat; assumption | lra].
    + assert (H1 : (e * t * / wq <= e * wq * / wq)%Q).
      { apply Qmult_le_compat_r; [|lra].
        rewrite (Qmult_comm e t), (Qmult_comm e wq).
        apply Qmult_le_compat_r; lra. }
      assert (H2 : (e * wq * / wq == e)%Q) by (field; lra).
      lra.
    + intros Hge. lra.
    + intros Ht _. rewrite Ht. field. lra.
  - exists e. split; [reflexivity|]. repeat split; try lra.
    intros Ht Hwpos. apply Qcltb_ge in Hlt. lra.
Qed.

Lemma langevin_eps_fn_ramp_witness :
  exists v : Qc,
    langevin_eps_fn Demo.config (Num (Q2Qc (1 # 2))) = Num v /\
    (0 <= v)%Q /\ (v <= Q2Qc 1)%Q.
Proof.
  destruct (@langevin_eps_fn_ramp Demo.config (Q2Qc 1) (Q2Qc (1 # 2)) (Q2Qc 1)
              eq_refl eq_refl
              ltac:(vm_compute; intro H; discriminate H)
              ltac:(vm_compute; intro H; discriminate H))
    as [v [H1 [H2 [H3 _]]]].
  exists v. repeat split; assumption.
Defined.

(** ** The step-size controller, once more *)

Lemma update_step_size_pos (self : SMCSampler) (r : scalar) (e : Qc) :
  langevin_eps self = Num e -> (0 < e)%Q ->
  exists e' : Qc,
    langevin_eps (update_step_size self r) = Num e' /\ (0 < e')%Q.
Proof.
  intros He Hpos. unfold update_step_size.
  destruct (sgtb r (of_Q (6 # 10))).
  - cbn [set_langevin_eps langevin_eps]. rewrite He.
    eexists. split; [reflexivity|].
    rewrite this_mult. eval_consts.
    change (this (Q2Qc (11 # 10))) with (11 # 10)%Q. nra.
  - destruct (sltb r (of_Q (55 # 100))).
    + cbn [set_langevin_eps langevin_eps]. rewrite He.
      eexists. split; [reflexivity|].
      rewrite this_div. change (this (Q2Qc (11 # 10))) with (11 # 10)%Q.
      apply Qlt_shift_div_l; lra.
    + exists e. now split.
Qed.

(** X2: [update_step_size] touches no field but the step size, does nothing at
    all when the acceptance rate is NaN, and keeps a positive step size
    positive. *)
Theorem update_step_size_invariants (self : SMCSampler) (r : scalar) :
  same_config self (update_step_size self r) /\
  (isnan r = true -> update_step_size self r = self) /\
  (forall e : Qc,
      langevin_eps self = Num e -> (0 < e)%Q ->
      exists e' : Qc,
        langevin_eps (update_step_size self r) = Num e' /\ (0 < e')%Q).
Proof.
  split; [apply same_config_update|]. split.
  - destruct r; [discriminate|]. reflexivity.
  - intros e. apply update_step_size_pos.
Qed.

Lemma update_step_size_invariants_witness :
  update_step_size Demo.config NaN = Demo.config /\
  exists e' : Qc,
    langevin_eps (update_step_size Demo.config (of_Q (7 # 10))) = Num e' /\
    (0 < e')%Q.
Proof.
  destruct (update_step_size_invariants Demo.config NaN) as [_ [Hnan _]].
  destruct (update_step_size_invariants Demo.config (of_Q (7 # 10)))
    as [_ [_ Hpos]].
  split; [apply Hnan; reflexivity|].
  apply (Hpos (Q2Qc 1) eq_refl). vm_compute. reflexivity.
Defined.

(** ** The time schedule *)

Lemma schedule_time_lt (T i j : nat) :
  i < j -> j <= T -> sltb (schedule_time T i) (schedule_time T j) = true.
Proof.
  intros Hij HjT. unfold schedule_time.
  change (of_nat i) with (Num (Q2Qc (inject_Z (Z.of_nat i)))).
  change (of_nat j) with (Num (Q2Qc (inject_Z (Z.of_nat j)))).
  rewrite !sdiv_of_nat by lia. cbn [sltb]. apply Qcltb_lt.
  rewrite !this_div, !this_of_nat.
  assert (HT : (0 < inject_Z (Z.of_nat T))%Q).
  { change 0%Q with (inject_Z 0). rewrite <- Zlt_Qlt. lia. }
  assert (Hlt : (inject_Z (Z.of_nat i) < inject_Z (Z.of_nat j))%Q).
  { rewrite <- Zlt_Qlt. lia. }
  unfold Qdiv. apply Qmult_lt_compat_r; [|exact Hlt].
  now apply Qinv_lt_0_compat.
Qed.

Lemma schedule_time_last (T : nat) : 0 < T -> schedule_time T T = s1.
Proof.
  intros HT. unfold schedule_time.
  change (of_nat T) with (Num (Q2Qc (inject_Z (Z.of_nat T)))) at 1.
  rewrite sdiv_of_nat by exact HT. change s1 with (Num 1%Qc). f_equal.
  field. intros H. pose proof (Qc_of_nat_pos HT) as Hpos.
  rewrite H in Hpos. now apply Qlt_irrefl in Hpos.
Qed.

Lemma schedule_time_first (T : nat) : 0 < T -> schedule_time T 0 = s0.
Proof.
  intros HT. unfold schedule_time. change (of_nat 0) with (Num (Q2Qc 0)).
  rewrite sdiv_of_nat by exact HT. change s0 with (Num 0%Qc).
  f_equal; change (Q2Qc 0) with 0%Qc; unfold Qcdiv; ring.
Qed.

Lemma init_timesteps_fractions (self : SMCSampler) :
  0 < num_timesteps self ->
  init_timesteps self =
  map (schedule_time (num_timesteps self)) (seq 0 (num_timesteps self + 1)).
Proof.
  intros HT. unfold init_timesteps, linspace.
  destruct (num_timesteps self + 1) as [|[|m]] eqn:Hm; try lia.
  rewrite <- Hm.
  replace (num_timesteps self + 1 - 1) with (num_timesteps self) by lia.
  apply map_ext. intros i. now apply linspace_entry.
Qed.

(** X3: [init_timesteps] returns [T + 1] times; for [T >= 1] they are the
    fractions [j / T], starting at 0, ending at 1 and strictly increasing;
    for [T = 0] the schedule is the single time 0. *)
Theorem init_timesteps_grid (self : SMCSampler) :
  let T := num_timesteps self in
  length (init_timesteps self) = T + 1 /\
  (0 < T ->
   init_timesteps self = map (schedule_time T) (seq 0 (T + 1)) /\
   hd NaN (init_timesteps self) = s0 /\
   last (init_timesteps self) NaN = s1 /\
   forall i j, i < j -> j <= T ->
               sltb (schedule_time T i) (schedule_time T j) = true) /\
  (T = 0 -> init_timesteps self = [s0]).
Proof.
  intros T. split; [|split].
  - unfold init_timesteps, linspace. fold T.
    destruct (T + 1) as [|[|m]] eqn:Hm; try lia; [reflexivity|].
    now rewrite length_map, length_seq.
  - intros HT. rewrite init_timesteps_fractions by exact HT. fold T.
    split; [reflexivity|]. split; [|split].
    + replace (T + 1) with (S T) by lia. cbn [seq map hd].
      now apply schedule_time_first.
    + rewrite seq_app, map_app. cbn [seq map]. rewrite last_last.
      now apply schedule_time_last.
    + intros i j. apply schedule_time_lt.
  - intros HT. unfold init_timesteps. fold T. rewrite HT. reflexivity.
Qed.

Lemma init_timesteps_grid_witness :
  init_timesteps Demo.config = map (schedule_time 4) (seq 0 (4 + 1)) /\
  last (init_timesteps Demo.config) NaN = s1.
Proof.
  destruct (init_timesteps_grid Demo.config) as [_ [H _]].
  destruct (H ltac:(cbn; lia)) as [H1 [_ [H2 _]]].
  split; assumption.
Defined.

(** ** Slicing the pool *)

Lemma batch_list_sizes {T : Type} (b : nat) (X : list T) :
  0 < b -> Forall (fun B => 0 < length B /\ length B <= b) (batch_list b X).
Proof.
  intros Hb. pattern X. apply (batch_ind (b := b)); [exact Hb| |].
  - rewrite batch_list_nil by exact Hb. constructor.
  - intros X0 HX IH. rewrite batch_list_cons by assumption.
    constructor; [|exact IH].
    rewrite length_firstn.
    assert (0 < length X0) by (destruct X0; [congruence|simpl; lia]). lia.
Qed.

(** X4: The batches of [sample]: a zero batch size is refused with the
    [ValueError] of [range]; a positive one cuts the pool into
    [ceil(N / b)] consecutive batches of one to [b] rows whose
    concatenation is the pool. *)
Theorem batches_partition {T : Type} (b : nat) (X : list T) :
  (b = 0 ->
   batches b X = Raise (ValueError "range() arg 3 must not be zero")) /\
  (0 < b ->
   exists bs, batches b X = Ok bs /\
              concat bs = X /\
              Forall (fun B => 0 < length B /\ length B <= b) bs /\
              length bs = (length X + b - 1) / b).
Proof.
  split.
  - intros ->. reflexivity.
  - intros Hb. exists (batch_list b X). repeat split.
    + now apply batches_pos.
    + now apply concat_batch_list.
    + now apply batch_list_sizes.
    + unfold batch_list, range_step. now rewrite !length_map, length_seq.
Qed.

Lemma batches_partition_witness :
  exists bs, batches 2 [1; 2; 3; 4; 5] = Ok bs /\
             concat bs = [1; 2; 3; 4; 5] /\ length bs = 3.
Proof.
  destruct (proj2 (batches_partition 2 [1; 2; 3; 4; 5]) ltac:(lia))
    as [bs [H1 [H2 [_ H3]]]].
  exists bs. repeat split; assumption.
Defined.

(** ** Energy interpolation, once more *)

(** X5: [linear_energy_interpolation] checks the source energy first, then the
    target energy, and never returns a vector whose length differs from the
    batch length. *)
Theorem linear_energy_interpolation_checks
  (source_energy target_energy : energy_fn) (t : scalar) (x : particles) :
  (length (source_energy x) <> length x ->
   linear_energy_interpolation source_energy target_energy t x =
   Raise (AssertionError "Source energy should be a flat vector")) /\
  (length (source_energy x) = length x ->
   length (target_energy x) <> length x ->
   linear_energy_interpolation source_energy target_energy t x =
   Raise (AssertionError "Target energy should be a flat vector")) /\
  (forall E,
      linear_energy_interpolation source_energy target_energy t x = Ok E ->
      length E = length x /\
      length (source_energy x) = length x /\
      length (target_energy x) = length x).
Proof.
  unfold linear_energy_interpolation. split; [|split].
  - intros H. apply Nat.eqb_neq in H. now rewrite H.
  - intros Hs Ht. apply Nat.eqb_neq in Ht. now rewrite Hs, Nat.eqb_refl, Ht.
  - intros E.
    destruct (length (source_energy x) =? length x) eqn:Hs; [|discriminate].
    destruct (length (target_energy x) =? length x) eqn:Ht; [|discriminate].
    cbn [negb]. intros H. injection H as <-.
    apply Nat.eqb_eq in Hs. apply Nat.eqb_eq in Ht.
    rewrite length_map, length_combine. lia.
Qed.

Lemma linear_energy_interpolation_checks_witness :
  linear_energy_interpolation (fun _ => []) Demo.square s0 Demo.pool =
    Raise (AssertionError "Source energy should be a flat vector") /\
  linear_energy_interpolation Demo.square (fun _ => []) s0 Demo.pool =
    Raise (AssertionError "Target energy should be a flat vector").
Proof.
  split.
  - apply (proj1 (linear_energy_interpolation_checks (fun _ => []) Demo.square
                    s0 Demo.pool)).
    intros H. discriminate H.
  - apply (proj1 (proj2 (linear_energy_interpolation_checks Demo.square
                           (fun _ => []) s0 Demo.pool))).
    + reflexivity.
    + intros H. discriminate H.
Defined.



(** ** Runs that cannot start *)

Section RunFacts.

Variable Qexp : Qc -> Qc.
Variable rng : Type.
Variable rand : rng -> Qc * rng.
Variable categorical : rng -> vec -> nat * rng.
Variable mcmc_kernel :
  SMCSampler -> energy_fn -> energy_fn -> scalar -> particles -> vec ->
  scalar -> particles * vec * vec.
Variable sampling_efficiency : vec -> scalar.
Variables source_energy target_energy : energy_fn.

Lemma move_batches_zero_batch (st : loop_state) (t : scalar) (w : world rng) :
  batch_size (w_self w) = 0 ->
  move_batches mcmc_kernel source_energy target_energy st t w =
  (Raise (ValueError "range() arg 3 must not be zero"), w).
Proof.
  intros Hb. unfold move_batches, bind, get_self, lift. now rewrite Hb.
Qed.

Lemma move_batches_empty (st : loop_state) (t : scalar) (w : world rng) :
  0 < batch_size (w_self w) -> st_X st = [] ->
  move_batches mcmc_kernel source_energy target_energy st t w =
  (Raise (RuntimeError "torch.cat(): expected a non-empty list of Tensors"), w).
Proof.
  intros Hb HX. rewrite move_batches_run by exact Hb. cbv zeta.
  rewrite HX, batch_list_nil by exact Hb. cbn [combine existsb map].
  unfold logged_calls. cbn [clean_prefix map]. now rewrite add_log_nil.
Qed.

Lemma first_step (self : SMCSampler) :
  0 < num_timesteps self ->
  exists t rest,
    enumerate (removelast (init_timesteps self)) = (0, t) :: rest.
Proof.
  intros HT. destruct (schedule_steps self HT) as [Hsteps _].
  cbv zeta in Hsteps.
  rewrite Hsteps. destruct (num_timesteps self) as [|n]; [lia|].
  cbn [seq map]. eauto.
Qed.

(** X7: A sampler whose batch size is zero cannot run: with at least one time
    step, the first slicing of the pool raises the [ValueError] of
    [range], and the kernel is never called. *)
Theorem sample_zero_batch_size (X pool : particles) (w w0 : world rng) :
  enabled (w_self w) = true ->
  batch_size (w_self w) = 0 ->
  0 < num_timesteps (w_self w) ->
  sample_init X target_energy w = (Ok pool, w0) ->
  let res := sample Qexp rand categorical mcmc_kernel sampling_efficiency
               X source_energy target_energy w in
  fst res = Raise (ValueError "range() arg 3 must not be zero") /\
  kernel_calls (w_log (snd res)) = kernel_calls (w_log w).
Proof.
  intros Hen Hb HT Hinit res. subst res.
  destruct (sample_init_effects target_energy X w) as [Hself [Hcalls _]].
  cbv zeta in Hself, Hcalls. rewrite Hinit in Hself, Hcalls.
  cbn [snd] in Hself, Hcalls.
  rewrite sample_run by exact Hen. cbv zeta. rewrite Hinit.
  destruct (first_step (w_self w) HT) as [t [rest Hsteps]]. rewrite Hsteps.
  rewrite smc_loop_cons, smc_step_run.
  rewrite move_batches_zero_batch
    by (cbn [add_log w_self]; now rewrite Hself).
  cbn [fst snd add_log w_log]. split; [reflexivity|].
  rewrite kernel_calls_app. cbn [kernel_calls]. now rewrite app_nil_r.
Qed.


(** ** What a run returns *)

Lemma gather_In {T : Type} (x : list T) (indexes : list nat) (r : list T) :
  gather x indexes = Ok r -> forall a, In a r -> In a x.
Proof.
  revert r. induction indexes as [|i rest IH]; intros r H a Ha.
  - injection H as <-. destruct Ha.
  - cbn [gather] in H. destruct (nth_error x i) as [xi|] eqn:Hi; [|discriminate].
    destruct (gather x rest) as [r'|e]; [|discriminate].
    injection H as <-. destruct Ha as [<-|Ha].
    + eapply nth_error_In. exact Hi.
    + now apply (IH r').
Qed.

Lemma gather_has_nan (X X' : particles) (indexes : list nat) :
  gather X indexes = Ok X' -> has_nan X = false -> has_nan X' = false.
Proof.
  intros Hg HX. destruct (has_nan X') eqn:HX'; [|reflexivity].
  apply existsb_exists in HX'. destruct HX' as [row [Hin Hrow]].
  assert (Hnan : has_nan X = true).
  { apply existsb_exists. exists row. split; [|exact Hrow].
    eapply gather_In; eassumption. }
  congruence.
Qed.

Lemma ones_nonan (n : nat) : vec_has_nan (ones n) = false.
Proof.
  unfold ones. induction n as [|n IH]; [reflexivity|]. exact IH.
Qed.

(** The state a successful iteration leaves has no NaN. *)
Lemma finish_step_clean (st st' : loop_state) (j : nat) (t : scalar)
  (X : particles) (A : vec) (r : scalar) (w w' : world rng) :
  finish_step Qexp rand categorical sampling_efficiency st j t X A r w =
  (Ok st', w') ->
  has_nan (st_X st') = false /\ vec_has_nan (st_A st') = false.
Proof.
  rewrite finish_step_run. cbv zeta.
  destruct (has_nan X) eqn:HX; [discriminate|].
  destruct (vec_has_nan A) eqn:HA; [discriminate|].
  destruct (_ && _).
  - destruct (resample Qexp rand categorical X A (controlled w r))
      as [[[X' indexes]|e] w2] eqn:Hres; [|discriminate].
    destruct (gather (st_particle_ids st) indexes) as [ids|e];
      [|discriminate].
    cbn [rbind]. intros H. injection H as <- _. cbn [st_X st_A]. split.
    + apply resample_Ok in Hres. eapply gather_has_nan; eassumption.
    + apply ones_nonan.
  - intros H. injection H as <- _. cbn [st_X st_A]. now split.
Qed.

Lemma smc_step_clean (st st' : loop_state) (j : nat) (t : scalar)
  (w w' : world rng) :
  smc_step Qexp rand categorical mcmc_kernel sampling_efficiency
    source_energy target_energy st j t w = (Ok st', w') ->
  has_nan (st_X st') = false /\ vec_has_nan (st_A st') = false.
Proof.
  rewrite smc_step_run.
  destruct (move_batches mcmc_kernel source_energy target_energy st t
              (add_log w [OuterLoop j])) as [[[[X A] r]|e] w1];
    [|discriminate].
  apply finish_step_clean.
Qed.

Lemma smc_loop_clean (steps : list (nat * scalar)) (st st' : loop_state)
  (w w' : world rng) :
  steps <> [] ->
  smc_loop Qexp rand categorical mcmc_kernel sampling_efficiency
    source_energy target_energy steps st w = (Ok st', w') ->
  has_nan (st_X st') = false /\ vec_has_nan (st_A st') = false.
Proof.
  revert st w. induction steps as [|[j t] rest IH]; intros st w Hne;
    [congruence|].
  rewrite smc_loop_cons.
  destruct (smc_step Qexp rand categorical mcmc_kernel sampling_efficiency
              source_energy target_energy st j t w) as [[st1|e] w1] eqn:Hstep;
    [|discriminate].
  destruct rest as [|s rest'].
  - cbn [smc_loop ret]. intros H. injection H as <- _.
    eapply smc_step_clean. exact Hstep.
  - apply IH. discriminate.
Qed.

(** A pool moved by a run that gets through its first iteration is not
    empty and is cut with a positive batch size. *)
Lemma smc_loop_started (steps : list (nat * scalar)) (st st' : loop_state)
  (w w' : world rng) :
  steps <> [] ->
  smc_loop Qexp rand categorical mcmc_kernel sampling_efficiency
    source_energy target_energy steps st w = (Ok st', w') ->
  0 < batch_size (w_self w) /\ st_X st <> [].
Proof.
  destruct steps as [|[j t] rest]; [congruence|]. intros _.
  rewrite smc_loop_cons, smc_step_run.
  destruct (batch_size (w_self w)) as [|b] eqn:Hb.
  - rewrite move_batches_zero_batch by exact Hb. discriminate.
  - destruct (st_X st) as [|row X] eqn:HX.
    + rewrite move_batches_empty
        by (first [exact HX | cbn [add_log w_self]; rewrite Hb; lia]).
      discriminate.
    + intros _. split; [lia | discriminate].
Qed.

(** X9: When [sample] returns particles and weights, the sampler was enabled
    with a positive batch size and at least one time step, the pool left by
    the cutoff filter was not empty, the particles returned are as many as
    that pool (the shape assertion), and neither the particles nor the
    weights contain a NaN. *)
Theorem sample_postcondition (X X' : particles) (A' : vec) (w w' : world rng) :
  sample Qexp rand categorical mcmc_kernel sampling_efficiency
    X source_energy target_energy w = (Ok (Some (X', A')), w') ->
  enabled (w_self w) = true /\
  0 < batch_size (w_self w) /\
  0 < num_timesteps (w_self w) /\
  (exists pool w0,
      sample_init X target_energy w = (Ok pool, w0) /\
      pool <> [] /\ shape X' = shape pool) /\
  has_nan X' = false /\ vec_has_nan A' = false.
Proof.
  destruct (enabled (w_self w)) eqn:Hen.
  2:{ unfold sample, bind, get_self. rewrite Hen. cbn [negb ret].
      intros H. discriminate H. }
  rewrite sample_run by exact Hen. cbv zeta.
  destruct (sample_init_effects target_energy X w) as [Hself _].
  cbv zeta in Hself.
  destruct (sample_init X target_energy w) as [[pool|e] w0] eqn:Hinit;
    [|discriminate].
  cbn [snd] in Hself.
  destruct (smc_loop Qexp rand categorical mcmc_kernel sampling_efficiency
              source_energy target_energy
              (enumerate (removelast (init_timesteps (w_self w))))
              (mkLoop pool (ones (length pool)) (seq 0 (length pool)) s0) w0)
    as [[st|e] w1] eqn:Hloop; [|discriminate].
  rewrite final_resampling_run.
  destruct (resample Qexp rand categorical (st_X st) (st_A st) w1)
    as [[[X'' indexes]|e] w2] eqn:Hres; [|discriminate].
  destruct (gather (st_particle_ids st) indexes) as [ids|e]; [|discriminate].
  destruct (last_j (enumerate (removelast (init_timesteps (w_self w)))))
    as [j|] eqn:Hj; [|discriminate].
  destruct (negb (shape_eqb (shape X'') (shape pool))) eqn:Hshape;
    [discriminate|].
  intros H. injection H as -> <- _.
  assert (Hne : enumerate (removelast (init_timesteps (w_self w))) <> []).
  { intros Hnil. rewrite Hnil in Hj. discriminate Hj. }
  edestruct smc_loop_started as [Hb Hpool]; [exact Hne | exact Hloop |].
  edestruct smc_loop_clean as [HX HA]; [exact Hne | exact Hloop |].
  rewrite Hself in Hb. cbn [st_X] in Hpool.
  split; [reflexivity|]. split; [exact Hb|]. split.
  { destruct (num_timesteps (w_self w)) eqn:HT; [|lia].
    now rewrite steps_without_schedule in Hne. }
  split.
  { exists pool, w0. split; [reflexivity|]. split; [exact Hpool|].
    apply negb_false_iff in Hshape. unfold shape_eqb in Hshape.
    apply andb_true_iff in Hshape. destruct Hshape as [H1 H2].
    apply Nat.eqb_eq in H1. apply Nat.eqb_eq in H2.
    destruct (shape X') as [a b], (shape pool) as [c d]. cbn [fst snd] in *.
    congruence. }
  split; [|exact HA].
  apply resample_Ok in Hres. eapply gather_has_nan; eassumption.
Qed.

(** ** The index tensor of [resample] *)

Lemma sgeb_trans (c v v' : scalar) :
  sgeb v' v = true -> sgeb c v' = true -> sgeb c v = true.
Proof.
  destruct c as [p|], v as [q|], v' as [q'|]; try discriminate.
  cbn [sgeb]. rewrite !Qcleb_le. intros H1 H2. lra.
Qed.

Lemma searchsorted_mono (c : vec) (v v' : scalar) :
  sgeb v' v = true -> searchsorted c v <= searchsorted c v'.
Proof.
  intros Hv. induction c as [|ci c IH]; [reflexivity|].
  cbn [searchsorted]. destruct (sgeb ci v) eqn:H; [lia|].
  destruct (sgeb ci v') eqn:H'; [|lia].
  rewrite (sgeb_trans ci v v' Hv H') in H. discriminate H.
Qed.

Lemma systematic_positions_increasing (r : Qc) (N k1 k2 : nat) :
  0 < N -> k1 <= k2 ->
  sgeb (sadd (sdiv (Num r) (of_nat N)) (sdiv (of_nat k2) (of_nat N)))
       (sadd (sdiv (Num r) (of_nat N)) (sdiv (of_nat k1) (of_nat N))) = true.
Proof.
  intros HN Hk.
  change (of_nat k1) with (Num (Q2Qc (inject_Z (Z.of_nat k1)))).
  change (of_nat k2) with (Num (Q2Qc (inject_Z (Z.of_nat k2)))).
  rewrite !sdiv_of_nat by exact HN. cbn [sadd lift2 sgeb].
  apply Qcleb_le. rewrite !this_plus, !this_div, !this_of_nat.
  assert (Hn : (0 < inject_Z (Z.of_nat N))%Q).
  { change 0%Q with (inject_Z 0). rewrite <- Zlt_Qlt. lia. }
  assert (Hle : (inject_Z (Z.of_nat k1) <= inject_Z (Z.of_nat k2))%Q).
  { rewrite <- Zle_Qle. lia. }
  apply Qplus_le_r. unfold Qdiv. apply Qmult_le_compat_r; [exact Hle|].
  apply Qlt_le_weak. now apply Qinv_lt_0_compat.
Qed.

Lemma resample_systematic (x x_selected : particles) (logw : vec)
  (indexes : list nat) (w w' : world rng) :
  systematic_resampling (w_self w) = true ->
  resample Qexp rand categorical x logw w = (Ok (x_selected, indexes), w') ->
  indexes = systematic_indexes Qexp logw (fst (rand (w_rng w))).
Proof.
  intros Hsys. rewrite resample_run. unfold resample_indexes. rewrite Hsys.
  destruct (rand (w_rng w)) as [r g]. cbn [fst].
  destruct (gather x (systematic_indexes Qexp logw r)); [|discriminate].
  cbn [rbind]. intros H. now injection H as _ <- _.
Qed.

(** X10: Systematic resampling returns its indices in non-decreasing order,
    whatever the log-weights: the particles selected keep the order of the
    pool. *)
Theorem systematic_resample_sorted (x x_selected : particles) (logw : vec)
  (indexes : list nat) (w w' : world rng) :
  systematic_resampling (w_self w) = true ->
  resample Qexp rand categorical x logw w = (Ok (x_selected, indexes), w') ->
  forall k1 k2 i1 i2,
    k1 <= k2 ->
    nth_error indexes k1 = Some i1 -> nth_error indexes k2 = Some i2 ->
    i1 <= i2.
Proof.
  intros Hsys Hres k1 k2 i1 i2 Hk H1 H2.
  rewrite (@resample_systematic x x_selected logw indexes w w' Hsys Hres)
    in H1, H2.
  assert (Hk2 : k2 < length logw).
  { rewrite <- (length_systematic_indexes Qexp logw (fst (rand (w_rng w)))).
    apply nth_error_Some. congruence. }
  rewrite nth_systematic_indexes in H1 by lia.
  rewrite nth_systematic_indexes in H2 by lia.
  injection H1 as <-. injection H2 as <-.
  apply searchsorted_mono. apply systematic_positions_increasing; lia.
Qed.

(** X11: [resample] returns as many particles as indices, all of them rows of
    [x]; the number is the length of the log-weights under the systematic
    scheme and the number of rows of [x] under the multinomial one.  The
    sampler object and the log are left as they were. *)
Theorem resample_output_length (x x_selected : particles) (logw : vec)
  (indexes : list nat) (w w' : world rng) :
  resample Qexp rand categorical x logw w = (Ok (x_selected, indexes), w') ->
  length x_selected = length indexes /\
  length indexes = (if systematic_resampling (w_self w)
                    then length logw else length x) /\
  Forall (fun i => i < length x) indexes /\
  (forall row, In row x_selected -> In row x) /\
  w_self w' = w_self w /\ w_log w' = w_log w.
Proof.
  intros Hres.
  destruct (resample_frame Qexp rand categorical x logw w) as [Hself Hlog].
  rewrite Hres in Hself, Hlog. cbn [snd] in Hself, Hlog.
  pose proof Hres as Hg. apply resample_Ok in Hg.
  edestruct (@gather_Ok_length particle) as [Hlen Hrange]; [exact Hg|].
  split; [exact Hlen|]. split.
  - revert Hres. rewrite resample_run. unfold resample_indexes.
    destruct (systematic_resampling (w_self w)).
    + destruct (rand (w_rng w)) as [r g].
      destruct (gather x (systematic_indexes Qexp logw r)); [|discriminate].
      cbn [rbind]. intros H. injection H as _ <- _.
      apply length_systematic_indexes.
    + destruct (draws categorical (w_rng w) (softmax Qexp logw) (length x))
        as [idx g] eqn:Hd.
      destruct (gather x idx); [|discriminate].
      cbn [rbind]. intros H. injection H as _ <- _.
      pose proof (length_draws categorical (w_rng w) (softmax Qexp logw)
                    (length x)) as Hl.
      now rewrite Hd in Hl.
  - split; [exact Hrange|]. split; [|now split].
    intros row. eapply gather_In. exact Hg.
Qed.

(** ** Systematic resampling of equal weights *)








(** ** What a run does to the sampler object *)

Section SelfInvariant.

(** A property of the sampler object that the step-size controller
    preserves whenever the step size is adaptive. *)
Variable P : SMCSampler -> Prop.
Hypothesis P_update :
  forall self r, adaptive_step_size self = true -> P self ->
                 P (update_step_size self r).

Lemma controlled_invariant (w : world rng) (r : scalar) :
  P (w_self w) -> P (w_self (controlled w r)).
Proof.
  intros H. unfold controlled.
  destruct (adaptive_step_size (w_self w)) eqn:Ha; [|exact H].
  cbn [w_self]. now apply P_update.
Qed.

Lemma finish_step_self (st : loop_state) (j : nat) (t : scalar)
  (X : particles) (A : vec) (r : scalar) (w : world rng) :
  w_self (snd (finish_step Qexp rand categorical sampling_efficiency
                 st j t X A r w)) = w_self (controlled w r).
Proof.
  rewrite finish_step_run. cbv zeta.
  destruct (has_nan X); [reflexivity|].
  destruct (vec_has_nan A); [reflexivity|].
  destruct (_ && _); [|reflexivity].
  destruct (resample_frame Qexp rand categorical X A (controlled w r))
    as [Hself _].
  destruct (resample Qexp rand categorical X A (controlled w r))
    as [[[X' indexes]|e] w2]; exact Hself.
Qed.

Lemma smc_step_invariant (st : loop_state) (j : nat) (t : scalar)
  (w : world rng) :
  P (w_self w) ->
  P (w_self (snd (smc_step Qexp rand categorical mcmc_kernel
                    sampling_efficiency source_energy target_energy
                    st j t w))).
Proof.
  intros H. rewrite smc_step_run.
  destruct (move_batches_effects mcmc_kernel source_energy target_energy
              st t (add_log w [OuterLoop j])) as [Hself _].
  cbv zeta in Hself.
  destruct (move_batches mcmc_kernel source_energy target_energy st t
              (add_log w [OuterLoop j])) as [[[[X A] r]|e] w1];
    cbn [snd add_log w_self] in Hself.
  - rewrite finish_step_self. apply controlled_invariant. now rewrite Hself.
  - cbn [snd]. now rewrite Hself.
Qed.

Lemma smc_loop_invariant (steps : list (nat * scalar)) (st : loop_state)
  (w : world rng) :
  P (w_self w) ->
  P (w_self (snd (smc_loop Qexp rand categorical mcmc_kernel
                    sampling_efficiency source_energy target_energy
                    steps st w))).
Proof.
  revert st w. induction steps as [|[j t] rest IH]; intros st w H;
    [exact H|].
  rewrite smc_loop_cons.
  pose proof (smc_step_invariant st j t w H) as Hstep.
  destruct (smc_step Qexp rand categorical mcmc_kernel sampling_efficiency
              source_energy target_energy st j t w) as [[st1|e] w1];
    cbn [snd] in Hstep.
  - now apply IH.
  - exact Hstep.
Qed.

Lemma final_resampling_self (steps : list (nat * scalar)) (pool : particles)
  (st : loop_state) (w : world rng) :
  w_self (snd (final_resampling Qexp rand categorical steps pool st w)) =
  w_self w.
Proof.
  rewrite final_resampling_run.
  destruct (resample_frame Qexp rand categorical (st_X st) (st_A st) w)
    as [Hself _].
  destruct (resample Qexp rand categorical (st_X st) (st_A st) w)
    as [[[X' indexes]|e] w1]; cbn [snd] in Hself; [|exact Hself].
  destruct (gather (st_particle_ids st) indexes); [|exact Hself].
  destruct (last_j steps); exact Hself.
Qed.

Lemma sample_invariant (X : particles) (w : world rng) :
  P (w_self w) ->
  P (w_self (snd (sample Qexp rand categorical mcmc_kernel
                    sampling_efficiency X source_energy target_energy w))).
Proof.
  intros H. destruct (enabled (w_self w)) eqn:Hen.
  2:{ unfold sample, bind, get_self. rewrite Hen. exact H. }
  rewrite sample_run by exact Hen. cbv zeta.
  destruct (sample_init_effects target_energy X w) as [Hself _].
  cbv zeta in Hself.
  destruct (sample_init X target_energy w) as [[pool|e] w0];
    cbn [snd] in Hself; [|cbn [snd]; now rewrite Hself].
  assert (H0 : P (w_self w0)) by (now rewrite Hself).
  pose proof (smc_loop_invariant
                (enumerate (removelast (init_timesteps (w_self w))))
                (mkLoop pool (ones (length pool)) (seq 0 (length pool)) s0)
                w0 H0) as Hloop.
  destruct (smc_loop Qexp rand categorical mcmc_kernel sampling_efficiency
              source_energy target_energy
              (enumerate (removelast (init_timesteps (w_self w))))
              (mkLoop pool (ones (length pool)) (seq 0 (length pool)) s0) w0)
    as [[st|e] w1]; cbn [snd] in Hloop; [|exact Hloop].
  now rewrite final_resampling_self.
Qed.

End SelfInvariant.

(** X13: [sample] changes nothing of the sampler object but its step size, and
    not even that when the step size is not adaptive; a finite positive
    step size is finite and positive when the run ends, whether it returns
    or raises. *)
Theorem sample_config_frame (X : particles) (w : world rng) :
  let res := sample Qexp rand categorical mcmc_kernel sampling_efficiency
               X source_energy target_energy w in
  same_config (w_self w) (w_self (snd res)) /\
  (adaptive_step_size (w_self w) = false -> w_self (snd res) = w_self w) /\
  (forall e : Qc,
      langevin_eps (w_self w) = Num e -> (0 < e)%Q ->
      exists e' : Qc,
        langevin_eps (w_self (snd res)) = Num e' /\ (0 < e')%Q).
Proof.
  intros res. subst res. split; [|split].
  - apply (@sample_invariant (fun self => same_config (w_self w) self)).
    + intros self r _ H.
      exact (same_config_trans H (same_config_update self r)).
    + apply same_config_refl.
  - intros Ha.
    apply (@sample_invariant (fun self => self = w_self w)).
    + intros self r Hadapt ->. congruence.
    + reflexivity.
  - intros e He Hpos.
    apply (@sample_invariant
             (fun self => exists e' : Qc,
                  langevin_eps self = Num e' /\ (0 < e')%Q)).
    + intros self r _ [e0 [He0 Hpos0]].
      exact (update_step_size_pos self r He0 Hpos0).
    + now exists e.
Qed.

(** ** What the kernel is handed *)

Lemma clean_prefix_In (zipped : list (particles * vec)) (z : particles * vec) :
  In z (clean_prefix zipped) -> In z zipped.
Proof.
  induction zipped as [|z0 rest IH]; [intros []|].
  cbn [clean_prefix]. destruct (has_nan (fst z0)); [intros []|].
  intros [<-|H]; [now left | right; now apply IH].
Qed.

Section LogInvariant.

(** A property of log entries that holds of every message of [sample] and
    of every kernel invocation on one to [b] rows. *)
Variable b : nat.
Variable Q : event -> Prop.
Hypothesis Q_clipping : Q Clipping.
Hypothesis Q_outer : forall j, Q (OuterLoop j).
Hypothesis Q_resampling : forall j indexes, Q (Resampling j indexes).
Hypothesis Q_kernel :
  forall t dt rows, 0 < rows -> rows <= b -> Q (KernelCall t dt rows).

Lemma move_batches_log (st : loop_state) (t : scalar) (w : world rng) :
  batch_size (w_self w) = b -> Forall Q (w_log w) ->
  Forall Q (w_log (snd (move_batches mcmc_kernel source_energy target_energy
                          st t w))).
Proof.
  intros Hb Hlog. destruct b as [|b'] eqn:Eb.
  - now rewrite move_batches_zero_batch.
  - rewrite move_batches_run by lia. cbv zeta. cbn [snd add_log w_log].
    apply Forall_app. split; [exact Hlog|].
    unfold logged_calls. apply Forall_map, Forall_forall. intros [Xb Ab] Hz.
    apply clean_prefix_In, in_combine_l in Hz. cbn [fst].
    pose proof (@batch_list_sizes particle (batch_size (w_self w)) (st_X st)
                  ltac:(lia)) as Hsizes.
    rewrite Forall_forall in Hsizes. destruct (Hsizes _ Hz) as [H1 H2].
    apply Q_kernel; lia.
Qed.

Lemma finish_step_log (st : loop_state) (j : nat) (t : scalar)
  (X : particles) (A : vec) (r : scalar) (w : world rng) :
  Forall Q (w_log w) ->
  Forall Q (w_log (snd (finish_step Qexp rand categorical sampling_efficiency
                          st j t X A r w))).
Proof.
  intros Hlog. rewrite finish_step_run. cbv zeta.
  destruct (controlled_frame w r) as [_ [_ Hc]].
  destruct (has_nan X); [cbn [snd]; now rewrite Hc|].
  destruct (vec_has_nan A); [cbn [snd]; now rewrite Hc|].
  destruct (_ && _); [|cbn [snd]; now rewrite Hc].
  destruct (resample_frame Qexp rand categorical X A (controlled w r))
    as [_ Hr].
  destruct (resample Qexp rand categorical X A (controlled w r))
    as [[[X' indexes]|e] w2]; cbn [snd] in *.
  - cbn [add_log w_log]. apply Forall_app. rewrite Hr, Hc.
    split; [exact Hlog|]. constructor; [apply Q_resampling | constructor].
  - now rewrite Hr, Hc.
Qed.

Lemma smc_step_log (st : loop_state) (j : nat) (t : scalar) (w : world rng) :
  batch_size (w_self w) = b -> Forall Q (w_log w) ->
  Forall Q (w_log (snd (smc_step Qexp rand categorical mcmc_kernel
                          sampling_efficiency source_energy target_energy
                          st j t w))).
Proof.
  intros Hb Hlog. rewrite smc_step_run.
  assert (Hmove : Forall Q (w_log (snd (move_batches mcmc_kernel source_energy
                     target_energy st t (add_log w [OuterLoop j]))))).
  { apply move_batches_log; [exact Hb|]. cbn [add_log w_log].
    apply Forall_app. split; [exact Hlog|].
    constructor; [apply Q_outer | constructor]. }
  destruct (move_batches mcmc_kernel source_energy target_energy st t
              (add_log w [OuterLoop j])) as [[[[X A] r]|e] w1];
    cbn [snd] in Hmove; [|exact Hmove].
  now apply finish_step_log.
Qed.

Lemma smc_loop_log (steps : list (nat * scalar)) (st : loop_state)
  (w : world rng) :
  batch_size (w_self w) = b -> Forall Q (w_log w) ->
  Forall Q (w_log (snd (smc_loop Qexp rand categorical mcmc_kernel
                          sampling_efficiency source_energy target_energy
                          steps st w))).
Proof.
  revert st w. induction steps as [|[j t] rest IH]; intros st w Hb Hlog;
    [exact Hlog|].
  rewrite smc_loop_cons.
  pose proof (smc_step_log st j t w Hb Hlog) as Hstep.
  destruct (smc_step_effects Qexp rand categorical mcmc_kernel
              sampling_efficiency source_energy target_energy st j t w)
    as [Hcfg _].
  cbv zeta in Hcfg. apply same_config_fields in Hcfg.
  destruct Hcfg as [Hsize _].
  destruct (smc_step Qexp rand categorical mcmc_kernel sampling_efficiency
              source_energy target_energy st j t w) as [[st1|e] w1];
    cbn [snd] in *; [|exact Hstep].
  apply IH; [congruence | exact Hstep].
Qed.

Lemma sample_init_log (X : particles) (w : world rng) :
  Forall Q (w_log w) ->
  Forall Q (w_log (snd (sample_init X target_energy w))).
Proof.
  intros Hlog. unfold sample_init, bind, get_self.
  destruct (input_energy_cutoff (w_self w)) as [cutoff|]; [|exact Hlog].
  unfold lift, logging, ret.
  destruct (mask_index X _) as [kept|e]; [|exact Hlog].
  cbn [snd w_log]. apply Forall_app. split; [exact Hlog|].
  constructor; [apply Q_clipping | constructor].
Qed.

Lemma final_resampling_log (steps : list (nat * scalar)) (pool : particles)
  (st : loop_state) (w : world rng) :
  Forall Q (w_log w) ->
  Forall Q (w_log (snd (final_resampling Qexp rand categorical
                          steps pool st w))).
Proof.
  intros Hlog. rewrite final_resampling_run.
  destruct (resample_frame Qexp rand categorical (st_X st) (st_A st) w)
    as [_ Hr].
  destruct (resample Qexp rand categorical (st_X st) (st_A st) w)
    as [[[X' indexes]|e] w1]; cbn [snd] in *; [|now rewrite Hr].
  destruct (gather (st_particle_ids st) indexes);
    [|cbn [snd]; now rewrite Hr].
  destruct (last_j steps); cbn [snd]; [|now rewrite Hr].
  cbn [add_log w_log]. apply Forall_app. rewrite Hr.
  split; [exact Hlog|]. constructor; [apply Q_resampling | constructor].
Qed.

Lemma sample_log (X : particles) (w : world rng) :
  batch_size (w_self w) = b -> Forall Q (w_log w) ->
  Forall Q (w_log (snd (sample Qexp rand categorical mcmc_kernel
                          sampling_efficiency X source_energy target_energy
                          w))).
Proof.
  intros Hb Hlog. destruct (enabled (w_self w)) eqn:Hen.
  2:{ unfold sample, bind, get_self. rewrite Hen. exact Hlog. }
  rewrite sample_run by exact Hen. cbv zeta.
  destruct (sample_init_effects target_energy X w) as [Hself _].
  cbv zeta in Hself.
  pose proof (sample_init_log X w Hlog) as Hinit.
  destruct (sample_init X target_energy w) as [[pool|e] w0];
    cbn [snd] in *; [|exact Hinit].
  assert (Hb0 : batch_size (w_self w0) = b) by (now rewrite Hself).
  pose proof (smc_loop_log
                (enumerate (removelast (init_timesteps (w_self w))))
                (mkLoop pool (ones (length pool)) (seq 0 (length pool)) s0)
                w0 Hb0 Hinit) as Hloop.
  destruct (smc_loop Qexp rand categorical mcmc_kernel sampling_efficiency
              source_energy target_energy
              (enumerate (removelast (init_timesteps (w_self w))))
              (mkLoop pool (ones (length pool)) (seq 0 (length pool)) s0) w0)
    as [[st|e] w1]; cbn [snd] in Hloop; [|exact Hloop].
  now apply final_resampling_log.
Qed.

End LogInvariant.

(** X14: Every kernel invocation of a run is on a batch of at least one and at
    most [batch_size] rows, whatever the kernel and the pool, whether the
    run returns or raises. *)
Theorem kernel_batches_bounded (X : particles) (w : world rng)
  (t dt : scalar) (rows : nat) :
  let res := sample Qexp rand categorical mcmc_kernel sampling_efficiency
               X source_energy target_energy w in
  In (KernelCall t dt rows) (w_log (snd res)) ->
  In (KernelCall t dt rows) (w_log w) \/
  (0 < rows /\ rows <= batch_size (w_self w)).
Proof.
  intros res Hin. subst res.
  pose proof (@sample_log (batch_size (w_self w))
                (fun ev => In ev (w_log w) \/
                           match ev with
                           | KernelCall _ _ n =>
                               0 < n /\ n <= batch_size (w_self w)
                           | _ => True
                           end)
                ltac:(now right) ltac:(now right) ltac:(now right)
                ltac:(intros; right; split; assumption)
                X w eq_refl) as Hlog.
  rewrite !Forall_forall in Hlog.
  exact (Hlog (fun ev H => or_introl H) _ Hin).
Qed.

(** ** Runs that never fall below the threshold *)

Lemma finish_step_quiet (st : loop_state) (j : nat) (t : scalar)
  (X : particles) (A : vec) (r : scalar) (w : world rng) :
  sltb (sampling_efficiency A) (ess_threshold (w_self w)) = false ->
  w_log (snd (finish_step Qexp rand categorical sampling_efficiency
                st j t X A r w)) = w_log w.
Proof.
  intros Hess. rewrite finish_step_run. cbv zeta.
  destruct (controlled_frame w r) as [Hcfg [_ Hlog]].
  apply same_config_fields in Hcfg. destruct Hcfg as [_ [_ [Hthr _]]].
  rewrite <- Hthr, Hess. cbn [andb].
  destruct (has_nan X); [exact Hlog|].
  destruct (vec_has_nan A); exact Hlog.
Qed.

Lemma smc_loop_quiet (steps : list (nat * scalar)) (st : loop_state)
  (w : world rng) (J : nat) :
  (forall A, sltb (sampling_efficiency A) (ess_threshold (w_self w)) = false) ->
  resamplings_at J
    (w_log (snd (smc_loop Qexp rand categorical mcmc_kernel
                   sampling_efficiency source_energy target_energy
                   steps st w))) =
  resamplings_at J (w_log w).
Proof.
  revert st w. induction steps as [|[j t] rest IH]; intros st w Hess;
    [reflexivity|].
  rewrite smc_loop_cons.
  assert (Hstep :
            resamplings_at J
              (w_log (snd (smc_step Qexp rand categorical mcmc_kernel
                             sampling_efficiency source_energy target_energy
                             st j t w))) = resamplings_at J (w_log w)).
  { rewrite smc_step_run.
    destruct (move_batches_effects mcmc_kernel source_energy target_energy
                st t (add_log w [OuterLoop j])) as [Hself [_ Hres]].
    cbv zeta in Hself, Hres. specialize (Hres J).
    cbn [add_log w_log w_self] in Hself, Hres.
    rewrite resamplings_at_app in Hres. cbn [resamplings_at] in Hres.
    rewrite app_nil_r in Hres.
    destruct (move_batches mcmc_kernel source_energy target_energy st t
                (add_log w [OuterLoop j])) as [[[[X A] r]|e] w1];
      cbn [snd] in *; [|exact Hres].
    rewrite finish_step_quiet by (rewrite Hself; apply Hess).
    exact Hres. }
  destruct (smc_step_effects Qexp rand categorical mcmc_kernel
              sampling_efficiency source_energy target_energy st j t w)
    as [Hcfg _].
  cbv zeta in Hcfg. apply same_config_fields in Hcfg.
  destruct Hcfg as [_ [_ [Hthr _]]].
  destruct (smc_step Qexp rand categorical mcmc_kernel sampling_efficiency
              source_energy target_energy st j t w) as [[st1|e] w1];
    cbn [snd] in *; [|exact Hstep].
  rewrite IH by (intros A; rewrite <- Hthr; apply Hess). exact Hstep.
Qed.

(** X15: If the effective sample size is never below the threshold, as with a
    NaN threshold or a NaN efficiency, no iteration of the loop resamples:
    whatever a run logs as a resampling is logged at the index of the last
    step, by the resampling after the loop. *)
Theorem no_resampling_above_threshold (X : particles) (w : world rng) (J : nat) :
  (forall A, sltb (sampling_efficiency A) (ess_threshold (w_self w)) = false) ->
  J + 1 <> num_timesteps (w_self w) ->
  let res := sample Qexp rand categorical mcmc_kernel sampling_efficiency
               X source_energy target_energy w in
  resamplings_at J (w_log (snd res)) = resamplings_at J (w_log w).
Proof.
  intros Hess HJ res. subst res.
  destruct (enabled (w_self w)) eqn:Hen.
  2:{ unfold sample, bind, get_self. now rewrite Hen. }
  rewrite sample_run by exact Hen. cbv zeta.
  destruct (sample_init_effects target_energy X w) as [Hself [_ Hinit]].
  cbv zeta in Hself, Hinit. specialize (Hinit J).
  destruct (sample_init X target_energy w) as [[pool|e] w0];
    cbn [snd] in *; [|exact Hinit].
  pose proof (@smc_loop_quiet
                (enumerate (removelast (init_timesteps (w_self w))))
                (mkLoop pool (ones (length pool)) (seq 0 (length pool)) s0)
                w0 J) as Hloop.
  rewrite Hself in Hloop. specialize (Hloop Hess).
  destruct (smc_loop Qexp rand categorical mcmc_kernel sampling_efficiency
              source_energy target_energy
              (enumerate (removelast (init_timesteps (w_self w))))
              (mkLoop pool (ones (length pool)) (seq 0 (length pool)) s0) w0)
    as [[st|e] w1]; cbn [snd] in Hloop; [|cbn [snd]; congruence].
  rewrite final_resampling_run.
  destruct (resample_frame Qexp rand categorical (st_X st) (st_A st) w1)
    as [_ Hr].
  destruct (resample Qexp rand categorical (st_X st) (st_A st) w1)
    as [[[X' indexes]|e] w2]; cbn [snd] in *; [|congruence].
  destruct (gather (st_particle_ids st) indexes);
    [|cbn [snd]; congruence].
  destruct (num_timesteps (w_self w)) as [|T'] eqn:HT.
  - rewrite steps_without_schedule by exact HT. cbn [last_j rev snd].
    congruence.
  - destruct (schedule_steps (w_self w) ltac:(lia)) as [_ [Hlast _]].
    cbv zeta in Hlast. rewrite Hlast. cbn [snd add_log w_log].
    rewrite resamplings_at_app. cbn [resamplings_at].
    replace (num_timesteps (w_self w) - 1 =? J) with false
      by (symmetry; apply Nat.eqb_neq; lia).
    rewrite app_nil_r. congruence.
Qed.

End RunFacts.

(** ** The further properties on the concrete instance *)

Lemma sample_zero_batch_size_witness :
  fst (Demo.run (set_batch_size Demo.config 0) Demo.pool) =
  Raise (ValueError "range() arg 3 must not be zero").
Proof.
  exact (proj1 (@sample_zero_batch_size Demo.Qexp Demo.rng Demo.rand
                  Demo.categorical Demo.kernel Demo.ess Demo.square
                  Demo.shifted_square Demo.pool Demo.pool
                  (Demo.start (set_batch_size Demo.config 0))
                  (Demo.start (set_batch_size Demo.config 0))
                  eq_refl eq_refl ltac:(cbn; lia) eq_refl)).
Defined.


Lemma sample_postcondition_witness :
  has_nan Demo.final_particles = false /\
  vec_has_nan Demo.final_weights = false /\
  length Demo.final_particles = length Demo.pool.
Proof.
  destruct (@sample_postcondition Demo.Qexp Demo.rng Demo.rand
              Demo.categorical Demo.kernel Demo.ess Demo.square
              Demo.shifted_square Demo.pool Demo.final_particles
              Demo.final_weights (Demo.start Demo.config) (snd Demo.outcome)
              ltac:(vm_compute; reflexivity))
    as [_ [_ [_ [_ [HX HA]]]]].
  split; [exact HX|]. split; [exact HA|]. reflexivity.
Defined.

Lemma systematic_resample_sorted_witness :
  nth_error Demo.resampled_indexes 0 = Some 0 /\
  nth_error Demo.resampled_indexes 3 = Some 3 /\
  0 <= 3.
Proof.
  split; [vm_compute; reflexivity|]. split; [vm_compute; reflexivity|].
  exact (@systematic_resample_sorted Demo.Qexp Demo.rng Demo.rand
           Demo.categorical Demo.pool Demo.resampled_particles
           (repeat (of_nat 2) 4) Demo.resampled_indexes
           (controlled (Demo.start Demo.resampling_config) s1)
           (snd Demo.resampled)
           ltac:(vm_compute; reflexivity) ltac:(vm_compute; reflexivity)
           0 3 0 3 ltac:(lia)
           ltac:(vm_compute; reflexivity) ltac:(vm_compute; reflexivity)).
Defined.

Lemma resample_output_length_witness :
  length Demo.resampled_particles = length Demo.resampled_indexes /\
  length Demo.resampled_indexes = 4 /\
  Forall (fun i => i < 4) Demo.resampled_indexes.
Proof.
  destruct (@resample_output_length Demo.Qexp Demo.rng Demo.rand
              Demo.categorical Demo.pool Demo.resampled_particles
              (repeat (of_nat 2) 4) Demo.resampled_indexes
              (controlled (Demo.start Demo.resampling_config) s1)
              (snd Demo.resampled) ltac:(vm_compute; reflexivity))
    as [H1 [H2 [H3 _]]].
  split; [exact H1|]. split; [exact H2 | exact H3].
Defined.


Lemma sample_config_frame_witness :
  w_self (snd (Demo.run Demo.config Demo.pool)) = Demo.config /\
  exists e' : Qc,
    langevin_eps (w_self (snd (Demo.run Demo.config Demo.pool))) = Num e' /\
    (0 < e')%Q.
Proof.
  destruct (@sample_config_frame Demo.Qexp Demo.rng Demo.rand
              Demo.categorical Demo.kernel Demo.ess Demo.square
              Demo.shifted_square Demo.pool (Demo.start Demo.config))
    as [_ [Hfixed Hpos]].
  split; [exact (Hfixed eq_refl)|].
  exact (Hpos (Q2Qc 1) eq_refl ltac:(vm_compute; reflexivity)).
Defined.

Lemma kernel_batches_bounded_witness :
  In (KernelCall s0 s0 2) (w_log (snd (Demo.run Demo.config Demo.pool))) /\
  0 < 2 <= batch_size Demo.config.
Proof.
  assert (Hin : In (KernelCall s0 s0 2)
                   (w_log (snd (Demo.run Demo.config Demo.pool)))).
  { vm_compute. right. left.
    f_equal; apply f_equal, Qc_is_canon; reflexivity. }
  split; [exact Hin|].
  destruct (@kernel_batches_bounded Demo.Qexp Demo.rng Demo.rand
              Demo.categorical Demo.kernel Demo.ess Demo.square
              Demo.shifted_square Demo.pool (Demo.start Demo.config)
              s0 s0 2 Hin) as [[]|H].
  exact H.
Defined.

Lemma no_resampling_above_threshold_witness :
  resamplings_at 0
    (w_log (snd (sample Demo.Qexp Demo.rand Demo.categorical Demo.kernel
                   (fun _ => NaN) Demo.pool Demo.square Demo.shifted_square
                   (Demo.start Demo.resampling_config)))) =
  resamplings_at 0 (w_log (Demo.start Demo.resampling_config)).
Proof.
  exact (@no_resampling_above_threshold Demo.Qexp Demo.rng Demo.rand
           Demo.categorical Demo.kernel (fun _ => NaN) Demo.square
           Demo.shifted_square Demo.pool (Demo.start Demo.resampling_config) 0
           (fun _ => eq_refl) ltac:(cbn; lia)).
Defined.
